(** * EnglishWordsT: the quiz session, its summary and the speech adapters

    A shallow embedding of [src/components/QuizScreen.tsx] (the quiz
    screen, the result screen and the selection screen's start handler),
    [src/App.tsx] (the screen router that owns the callbacks) and
    [src/utils/speech.ts] (voice choice and pitch of an utterance).

    JavaScript values are modelled as the language has them: a string is
    its sequence of UTF-16 code units, a Number is an IEEE 754 binary64
    value (the executable [SpecFloat] model of the core library), React
    state is an explicit record, and a pending [setTimeout] callback is a
    closure record holding what the callback captured when it was made. *)

From Stdlib Require Import Strings.String Strings.Ascii.
From Stdlib Require Import ZArith List Bool Lia Permutation Sorting.Sorted.
From Stdlib Require Import Floats.SpecFloat.
Import ListNotations.

Local Open Scope Z_scope.

(** ** JavaScript strings *)

Definition codeunit := Z.
Definition jsstring := list codeunit.

(** A string literal of the source, as code units (ASCII literals only). *)
Definition js (s : string) : jsstring :=
  map (fun a => Z.of_N (N_of_ascii a)) (list_ascii_of_string s).

(** [===] on strings. *)
Fixpoint str_eqb (s t : jsstring) : bool :=
  match s, t with
  | [], [] => true
  | c :: s', d :: t' => (c =? d) && str_eqb s' t'
  | _, _ => false
  end.

(** ECMAScript WhiteSpace and LineTerminator code points, the set that
    [String.prototype.trim] strips. *)
Definition isWhiteSpace (c : codeunit) : bool :=
  (c =? 9) || (c =? 10) || (c =? 11) || (c =? 12) || (c =? 13) || (c =? 32)
  || (c =? 160) || (c =? 5760) || ((8192 <=? c) && (c <=? 8202))
  || (c =? 8232) || (c =? 8233) || (c =? 8239) || (c =? 8287)
  || (c =? 12288) || (c =? 65279).

Fixpoint trimStart (s : jsstring) : jsstring :=
  match s with
  | [] => []
  | c :: s' => if isWhiteSpace c then trimStart s' else s
  end.

Definition trimEnd (s : jsstring) : jsstring := rev (trimStart (rev s)).

Definition trim (s : jsstring) : jsstring := trimEnd (trimStart s).

Fixpoint startsWith (s p : jsstring) : bool :=
  match p, s with
  | [], _ => true
  | d :: p', c :: s' => (c =? d) && startsWith s' p'
  | _ :: _, [] => false
  end.

(** [s.includes(p)]: [p] occurs in [s] as a contiguous run of code units. *)
Fixpoint includes (s p : jsstring) : bool :=
  startsWith s p ||
  match s with
  | [] => false
  | _ :: s' => includes s' p
  end.

(** The character class [[a-zA-Z]] of the transcript filter. *)
Definition isLetter (c : codeunit) : bool :=
  ((65 <=? c) && (c <=? 90)) || ((97 <=? c) && (c <=? 122)).

(** [s.replace(/[^a-zA-Z]/g, '')]: the pattern has no [u] flag, so it is
    matched code unit by code unit. *)
Definition stripNonLetters (s : jsstring) : jsstring := filter isLetter s.

Definition isAscii (c : codeunit) : bool := (0 <=? c) && (c <? 128).

Definition asciiLower (c : codeunit) : codeunit :=
  if (65 <=? c) && (c <=? 90) then c + 32 else c.

(** The host's [String.prototype.toLowerCase].  Its Unicode case tables
    are the engine's, not the repository's, so the function is an
    interface of the host. *)
Class Host := {
  toLowerCase : jsstring -> jsstring
}.

(** What every engine guarantees of [toLowerCase], and all that the
    development relies on: its action on ASCII-only strings. *)
Definition ascii_faithful (host : Host) : Prop :=
  forall s, forallb isAscii s = true -> toLowerCase s = map asciiLower s.

(** A host whose case mapping touches ASCII letters only. *)
Definition asciiHost : Host :=
  {| toLowerCase := map (fun c => if isAscii c then asciiLower c else c) |}.

(** ** JavaScript Numbers: IEEE 754 binary64 *)

Module Number.

Definition prec : Z := 53.
Definition emax : Z := 1024.

Definition t := spec_float.

Definition NaN : t := S754_nan.

(** An integer as a Number (exact below 2^53). *)
Definition ofZ (z : Z) : t := binary_normalize prec emax z 0 false.
Definition ofNat (n : nat) : t := ofZ (Z.of_nat n).

Definition add : t -> t -> t := SFadd prec emax.
Definition sub : t -> t -> t := SFsub prec emax.
Definition mul : t -> t -> t := SFmul prec emax.
Definition div : t -> t -> t := SFdiv prec emax.

(** [x === y] and [x < y] on Numbers; both are false on NaN. *)
Definition eqb : t -> t -> bool := SFeqb.
Definition ltb : t -> t -> bool := SFltb.

(** The decimal literal [n/d] of the source, correctly rounded. *)
Definition lit (n d : Z) : t := div (ofZ n) (ofZ d).

(** [Math.round]: the nearest integer, a tie going towards +infinity;
    integral values, infinities and NaN are returned as they are. *)
Definition Math_round (x : t) : t :=
  match x with
  | S754_finite s m e =>
      if 0 <=? e then x
      else
        let n := cond_Zopp s (Zpos m) in
        let r := (2 * n + 2 ^ (- e)) / (2 * 2 ^ (- e)) in
        if r =? 0 then S754_zero s else ofZ r
  | _ => x
  end.

(** [Math.floor]. *)
Definition Math_floor (x : t) : t :=
  match x with
  | S754_finite s m e =>
      if 0 <=? e then x
      else
        let r := cond_Zopp s (Zpos m) / 2 ^ (- e) in
        if r =? 0 then S754_zero false else ofZ r
  | _ => x
  end.

End Number.

(** Rounding of the exact quotient [n/d] to the nearest integer, a tie
    going up: the mathematical [round] on rationals, for [0 < d]. *)
Definition round_half_up (n d : Z) : Z := (2 * n + d) / (2 * d).

(** ** [src/utils/speech.ts]: voice choice and pitch *)

Inductive VoiceGender := male | female.

Record SpeechSynthesisVoice := {
  voiceURI : jsstring;
  name : jsstring;
  lang : jsstring
}.

Record SpeechSynthesisUtterance := {
  utterance_text : jsstring;
  utterance_lang : jsstring;
  utterance_rate : Number.t;
  utterance_pitch : Number.t;
  utterance_voice : option SpeechSynthesisVoice
}.

Definition maleKeywords : list jsstring :=
  map js
    ["male";
     "david"; "daniel"; "mark"; "guy"; "ryan"; "andrew"; "christopher";
     "eric"; "george"; "roger"; "sean"; "brian"; "matthew";
     "alex"; "fred"; "tom"; "junior"; "ralph"; "albert"; "bruce";
     "james"]%string.

Definition femaleKeywords : list jsstring :=
  map js
    ["female"; "zira"; "samantha"; "google us english";
     "google uk english female"; "victoria"; "karen"; "moira";
     "fiona"]%string.

(** The optional argument [specificVoiceURI] in a condition: [undefined]
    and the empty string are falsy. *)
Definition truthyURI (specificVoiceURI : option jsstring) : option jsstring :=
  match specificVoiceURI with
  | Some (c :: u) => Some (c :: u)
  | _ => None
  end.

Definition isSome {A} (o : option A) : bool :=
  match o with Some _ => true | None => false end.

Definition orElse {A} (o : option A) (alt : option A) : option A :=
  match o with Some _ => o | None => alt end.

Section Speech.
Context {host : Host}.

(** The predicate of both keyword searches:
    [v.lang.includes('en') && keywords.some(k => v.name.toLowerCase().includes(k))]. *)
Definition keywordMatch (keywords : list jsstring)
           (v : SpeechSynthesisVoice) : bool :=
  includes (lang v) (js "en")
  && existsb (fun keyword => includes (toLowerCase (name v)) keyword) keywords.

(** Step 1 of [speakWord]: the look-up of the voice the user picked. *)
Definition findSpecific (voices : list SpeechSynthesisVoice)
           (specificVoiceURI : option jsstring) : option SpeechSynthesisVoice :=
  match truthyURI specificVoiceURI with
  | Some uri => find (fun v => str_eqb (voiceURI v) uri) voices
  | None => None
  end.

(** The body of [speakWord] between [getVoices()] and the pitch test:
    the pair [(selectedVoice, foundMaleVoice)] it ends with. *)
Definition selectVoice (voices : list SpeechSynthesisVoice)
           (gender : VoiceGender) (specificVoiceURI : option jsstring)
  : option SpeechSynthesisVoice * bool :=
  (* 1. the specific voice, when given and present *)
  let selected1 := findSpecific voices specificVoiceURI in
  let found1 := isSome selected1 in
  (* 2. the keyword heuristic *)
  let '(selected2, found2) :=
    match selected1 with
    | Some _ => (selected1, found1)
    | None =>
        match gender with
        | male =>
            let byKeyword := find (keywordMatch maleKeywords) voices in
            (byKeyword, if isSome byKeyword then true else found1)
        | female => (find (keywordMatch femaleKeywords) voices, found1)
        end
    end in
  (* 3. any en-US voice *)
  let selected3 :=
    orElse selected2 (find (fun v => str_eqb (lang v) (js "en-US")) voices) in
  (* 4. any English voice *)
  let selected4 :=
    orElse selected3 (find (fun v => includes (lang v) (js "en")) voices) in
  (selected4, found2).

(** [speakWord]: [None] when the window has no [speechSynthesis] (the
    early return), otherwise the utterance handed to [speak] after the
    pending ones were cancelled. *)
Definition speakWord (supported : bool) (voices : list SpeechSynthesisVoice)
           (text : jsstring) (gender : VoiceGender)
           (specificVoiceURI : option jsstring) (speechRate : Number.t)
  : option SpeechSynthesisUtterance :=
  if negb supported then None
  else
    let '(selectedVoice, foundMaleVoice) :=
      selectVoice voices gender specificVoiceURI in
    let pitch :=
      match gender with
      | male => if negb foundMaleVoice then Number.lit 7 10 else Number.ofZ 1
      | female => Number.ofZ 1
      end in
    Some {| utterance_text := text;
            utterance_lang := js "en-US";
            utterance_rate := speechRate;
            utterance_pitch := pitch;
            utterance_voice := selectedVoice |}.

End Speech.

(** ** Vocabulary items and attempt records ([src/types.ts]) *)

Record VocabWord := {
  id : jsstring;
  team : jsstring;
  lesson : jsstring;
  english : jsstring;
  chinese : jsstring
}.

Record QuizResult := {
  word : VocabWord;
  userAnswer : jsstring;
  isCorrect : bool
}.

Inductive AppScreen := SELECTION | QUIZ | RESULT.

(** ** [ResultScreen]: the session summary *)

Inductive OutcomeClass := Perfect | Poor | Normal.

Definition correctCount (results : list QuizResult) : nat :=
  length (filter isCorrect results).

Definition total (results : list QuizResult) : nat := length results.

(** [Math.round((correctCount / total) * 100)] on two counts. *)
Definition percentageOf (c n : nat) : Number.t :=
  Number.Math_round
    (Number.mul (Number.div (Number.ofNat c) (Number.ofNat n)) (Number.ofZ 100)).

Definition percentage (results : list QuizResult) : Number.t :=
  percentageOf (correctCount results) (total results).

Definition isPerfect (results : list QuizResult) : bool :=
  Number.eqb (percentage results) (Number.ofZ 100).

Definition isBad (results : list QuizResult) : bool :=
  Number.ltb (percentage results) (Number.ofZ 80).

(** The card shown: the trophy when [isPerfect], else the frown when
    [isBad], else the star. *)
Definition outcomeClass (results : list QuizResult) : OutcomeClass :=
  if isPerfect results then Perfect
  else if isBad results then Poor
  else Normal.

(** ** Completions: a handler returns or throws *)

Inductive Exn := TypeError.

Inductive completion (A : Type) :=
| Returns (a : A)
| Throws (e : Exn).
Arguments Returns {A} a.
Arguments Throws {A} e.

Definition bind {A B} (c : completion A) (k : A -> completion B) : completion B :=
  match c with
  | Returns a => k a
  | Throws e => Throws e
  end.

Notation "x <- c ;; k" := (bind c (fun x => k))
  (at level 61, c at next level, right associativity).

(** ** [[...words].sort(() => Math.random() - 0.5)]

    [Array.prototype.sort] is the engine's.  It is modelled as an
    insertion sort, the kind of sort engines run on short arrays: the
    elements are taken from left to right and each is put into the
    already ordered prefix, before the first element the comparator
    places it in front of.  The comparator is stateful; its state is the
    number of draws made from the random source so far.  What is proved
    of the result below does not depend on what the comparator answers. *)

Section Sort.
Context {A : Type}.
Variable comparefn : A -> A -> nat -> Number.t * nat.

Fixpoint insertSorted (x : A) (sorted : list A) (k : nat) : list A * nat :=
  match sorted with
  | [] => ([x], k)
  | y :: rest =>
      let (v, k') := comparefn x y k in
      if Number.ltb v (Number.ofZ 0) then (x :: sorted, k')
      else let (r, k'') := insertSorted x rest k' in (y :: r, k'')
  end.

Fixpoint sortFrom (sorted rest : list A) (k : nat) : list A * nat :=
  match rest with
  | [] => (sorted, k)
  | x :: rest' =>
      let (sorted', k') := insertSorted x sorted k in
      sortFrom sorted' rest' k'
  end.

Definition Array_sort (l : list A) (k : nat) : list A * nat :=
  sortFrom [] l k.
End Sort.

(** The source of [Math.random()]: its successive values. *)
Definition Random := nat -> Number.t.

Definition randomComparator {A} (random : Random) (_ _ : A) (k : nat)
  : Number.t * nat :=
  (Number.sub (random k) (Number.lit 1 2), S k).

Definition shuffle (random : Random) (words : list VocabWord) : list VocabWord :=
  fst (Array_sort (randomComparator random) words 0%nat).

(** ** [QuizScreen]: the component state *)

Inductive FeedbackState := idle | correct | wrong.

Definition isIdle (f : FeedbackState) : bool :=
  match f with idle => true | _ => false end.

Record QuizScreenState := {
  shuffledWords : list VocabWord;
  currentIndex : nat;
  userInput : jsstring;
  results : list QuizResult;
  feedback : FeedbackState;
  isListening : bool;
  speechRate : Number.t;
  startTimeRef : Z;          (* [Date.now()] at mount, in milliseconds *)
  recognitionRef : bool      (* a recognition object is held *)
}.

Definition setCurrentIndex (i : nat) (q : QuizScreenState) :=
  {| shuffledWords := shuffledWords q; currentIndex := i;
     userInput := userInput q; results := results q; feedback := feedback q;
     isListening := isListening q; speechRate := speechRate q;
     startTimeRef := startTimeRef q; recognitionRef := recognitionRef q |}.

Definition setUserInput (s : jsstring) (q : QuizScreenState) :=
  {| shuffledWords := shuffledWords q; currentIndex := currentIndex q;
     userInput := s; results := results q; feedback := feedback q;
     isListening := isListening q; speechRate := speechRate q;
     startTimeRef := startTimeRef q; recognitionRef := recognitionRef q |}.

Definition setResults (r : list QuizResult) (q : QuizScreenState) :=
  {| shuffledWords := shuffledWords q; currentIndex := currentIndex q;
     userInput := userInput q; results := r; feedback := feedback q;
     isListening := isListening q; speechRate := speechRate q;
     startTimeRef := startTimeRef q; recognitionRef := recognitionRef q |}.

Definition setFeedback (f : FeedbackState) (q : QuizScreenState) :=
  {| shuffledWords := shuffledWords q; currentIndex := currentIndex q;
     userInput := userInput q; results := results q; feedback := f;
     isListening := isListening q; speechRate := speechRate q;
     startTimeRef := startTimeRef q; recognitionRef := recognitionRef q |}.

Definition setIsListening (b : bool) (q : QuizScreenState) :=
  {| shuffledWords := shuffledWords q; currentIndex := currentIndex q;
     userInput := userInput q; results := results q; feedback := feedback q;
     isListening := b; speechRate := speechRate q;
     startTimeRef := startTimeRef q; recognitionRef := recognitionRef q |}.

Definition setSpeechRate (r : Number.t) (q : QuizScreenState) :=
  {| shuffledWords := shuffledWords q; currentIndex := currentIndex q;
     userInput := userInput q; results := results q; feedback := feedback q;
     isListening := isListening q; speechRate := r;
     startTimeRef := startTimeRef q; recognitionRef := recognitionRef q |}.

Definition setRecognitionRef (b : bool) (q : QuizScreenState) :=
  {| shuffledWords := shuffledWords q; currentIndex := currentIndex q;
     userInput := userInput q; results := results q; feedback := feedback q;
     isListening := isListening q; speechRate := speechRate q;
     startTimeRef := startTimeRef q; recognitionRef := b |}.

(** [shuffledWords[currentIndex]], [None] for [undefined]. *)
Definition currentWord (q : QuizScreenState) : option VocabWord :=
  nth_error (shuffledWords q) (currentIndex q).

(** A render reads [currentWord.id], [currentWord.chinese] and
    [currentWord.english]: it throws when [currentWord] is [undefined]. *)
Definition render (q : QuizScreenState) : completion QuizScreenState :=
  match currentWord q with
  | Some _ => Returns q
  | None => Throws TypeError
  end.

(** The first render of a [QuizScreen] given [words]: the lazy initial
    states, [startTimeRef], and the render itself. *)
Definition mountQuizScreen (words : list VocabWord) (random : Random) (now : Z)
  : completion QuizScreenState :=
  render {| shuffledWords := shuffle random words;
            currentIndex := 0%nat;
            userInput := [];
            results := [];
            feedback := idle;
            isListening := false;
            speechRate := Number.lit 8 10;
            startTimeRef := now;
            recognitionRef := false |}.

Definition stopListening (q : QuizScreenState) : QuizScreenState :=
  setIsListening false (setRecognitionRef false q).

(** [startListening], given whether the window has a [SpeechRecognition]
    constructor; [isListening] is set later, by the [onstart] event. *)
Definition startListening (hasSpeechRecognition : bool) (q : QuizScreenState)
  : QuizScreenState :=
  if hasSpeechRecognition then setRecognitionRef true q else q.

Definition toggleListening (hasSpeechRecognition : bool) (q : QuizScreenState)
  : QuizScreenState :=
  if isListening q then stopListening q
  else startListening hasSpeechRecognition q.

(** One entry of [event.results]: the transcript of its alternative 0
    (the API gives every result at least one alternative). *)
Record SpeechRecognitionResult := {
  transcript : jsstring;
  otherAlternatives : list jsstring
}.

(** What the callback passed to [setTimeout(..., 1500)] captured from the
    render in which [handleSubmit] ran. *)
Record DwellCallback := {
  captured_currentIndex : nat;
  captured_shuffledWords : list VocabWord;
  captured_results : list QuizResult;
  captured_newResult : QuizResult;
  captured_startTime : Z
}.

(** What the callback does when the timer fires at time [now]. *)
Inductive TimerAction :=
| Advance
    (* setFeedback('idle'); setUserInput(''); setCurrentIndex(prev => prev + 1) *)
| Finish (finalResults : list QuizResult) (durationSeconds : Number.t).
    (* onFinish([...results, newResult], durationSeconds) *)

Definition dwellCallback (cb : DwellCallback) (now : Z) : TimerAction :=
  if Z.of_nat (captured_currentIndex cb)
     <? Z.of_nat (length (captured_shuffledWords cb)) - 1
  then Advance
  else
    Finish (captured_results cb ++ [captured_newResult cb])
           (Number.Math_floor
              (Number.div
                 (Number.sub (Number.ofZ now) (Number.ofZ (captured_startTime cb)))
                 (Number.ofZ 1000))).

Section Quiz.
Context {host : Host}.

(** [recognition.onresult]. *)
Definition onresult (event_results : list SpeechRecognitionResult)
           (q : QuizScreenState) : QuizScreenState :=
  let finalTranscript :=
    fold_left (fun acc r => acc ++ transcript r) event_results [] in
  let cleanedInput := toLowerCase (stripNonLetters finalTranscript) in
  setUserInput cleanedInput q.

(** [handleSubmit]: the next state and the timer it schedules, if any.
    Outside the idle state it returns at its first guard.  Reading
    [currentWord.english] throws when [currentWord] is [undefined]. *)
Definition handleSubmit (q : QuizScreenState)
  : completion (QuizScreenState * option DwellCallback) :=
  if negb (isIdle (feedback q)) then Returns (q, None)
  else
    let q1 := stopListening q in
    match currentWord q with
    | None => Throws TypeError
    | Some w =>
        let normalizedInput := toLowerCase (trim (userInput q)) in
        let normalizedTarget := toLowerCase (trim (english w)) in
        let isCorrect' := str_eqb normalizedInput normalizedTarget in
        let q2 := setFeedback (if isCorrect' then correct else wrong) q1 in
        let newResult :=
          {| word := w; userAnswer := userInput q; isCorrect := isCorrect' |} in
        let q3 := setResults (results q2 ++ [newResult]) q2 in
        Returns
          (q3,
           Some {| captured_currentIndex := currentIndex q;
                   captured_shuffledWords := shuffledWords q;
                   captured_results := results q;
                   captured_newResult := newResult;
                   captured_startTime := startTimeRef q |})
    end.

(** [n] submit events in a row; timers scheduled on the way are
    collected in order. *)
Fixpoint submitTimes (n : nat) (q : QuizScreenState)
  : completion (QuizScreenState * list DwellCallback) :=
  match n with
  | O => Returns (q, [])
  | S n' =>
      r <- handleSubmit q ;;
      r' <- submitTimes n' (fst r) ;;
      Returns (fst r',
               (match snd r with Some cb => [cb] | None => [] end) ++ snd r')
  end.

End Quiz.

(** ** [App]: the screen router, the mounted quiz and the pending timers

    Events are handled one at a time, each on the state the previous one
    left (React flushes the updates of a discrete event before the next
    event is dispatched).  [quiz] is the mounted [QuizScreen], present
    exactly while the quiz screen is shown; [instance] counts the mounts
    and so names the mounted component; [timers] are the pending
    [setTimeout(..., 1500)] callbacks, oldest first, each with the
    instance that made it.  No handler clears them: unmounting runs the
    effect clean-ups only ([stopListening], and [clearTimeout] of the
    500 ms prompt timer), so they outlive the component, and a state
    setter called for an unmounted instance does nothing. *)

Record App := {
  screen : AppScreen;
  selectedWords : list VocabWord;
  selectedGender : VoiceGender;
  selectedVoiceURI : option jsstring;
  quizResults : list QuizResult;
  quizDuration : Number.t;
  quiz : option QuizScreenState;
  instance : nat;
  timers : list (nat * DwellCallback)
}.

Definition initialApp : App :=
  {| screen := SELECTION; selectedWords := []; selectedGender := female;
     selectedVoiceURI := None; quizResults := [];
     quizDuration := Number.ofZ 0; quiz := None; instance := 0%nat;
     timers := [] |}.

Definition setQuiz (q : option QuizScreenState) (a : App) : App :=
  {| screen := screen a; selectedWords := selectedWords a;
     selectedGender := selectedGender a;
     selectedVoiceURI := selectedVoiceURI a; quizResults := quizResults a;
     quizDuration := quizDuration a; quiz := q; instance := instance a;
     timers := timers a |}.

Definition setTimers (t : list (nat * DwellCallback)) (a : App) : App :=
  {| screen := screen a; selectedWords := selectedWords a;
     selectedGender := selectedGender a;
     selectedVoiceURI := selectedVoiceURI a; quizResults := quizResults a;
     quizDuration := quizDuration a; quiz := quiz a; instance := instance a;
     timers := t |}.

(** [startQuiz]: the state setters, then the quiz screen's first render. *)
Definition startQuiz (words : list VocabWord) (gender : VoiceGender)
           (voiceURI : option jsstring) (random : Random) (now : Z) (a : App)
  : completion App :=
  q <- mountQuizScreen words random now ;;
  Returns {| screen := QUIZ; selectedWords := words;
             selectedGender := gender; selectedVoiceURI := voiceURI;
             quizResults := quizResults a; quizDuration := quizDuration a;
             quiz := Some q; instance := S (instance a);
             timers := timers a |}.

(** [finishQuiz], the [onFinish] prop of the quiz screen. *)
Definition finishQuiz (finalResults : list QuizResult) (duration : Number.t)
           (a : App) : App :=
  {| screen := RESULT; selectedWords := selectedWords a;
     selectedGender := selectedGender a;
     selectedVoiceURI := selectedVoiceURI a; quizResults := finalResults;
     quizDuration := duration; quiz := None; instance := instance a;
     timers := timers a |}.

(** [restartApp], both the [onExit] prop of the quiz screen and the
    [onRestart] prop of the result screen. *)
Definition restartApp (a : App) : App :=
  {| screen := SELECTION; selectedWords := [];
     selectedGender := selectedGender a;
     selectedVoiceURI := selectedVoiceURI a; quizResults := [];
     quizDuration := Number.ofZ 0; quiz := None; instance := instance a;
     timers := timers a |}.

(** [checkedWords.has(w.id)], the set given by its elements. *)
Definition has (checkedWords : list jsstring) (i : jsstring) : bool :=
  existsb (str_eqb i) checkedWords.

(** [handleStart] of the selection screen, on that screen's state at the
    click. *)
Definition handleStart (availableWords : list VocabWord)
           (checkedWords : list jsstring) (selectedGender' : VoiceGender)
           (selectedMaleVoiceURI : jsstring) (random : Random) (now : Z)
           (a : App) : completion App :=
  let wordsToQuiz := filter (fun w => has checkedWords (id w)) availableWords in
  if (0 <? Z.of_nat (length wordsToQuiz)) then
    let voiceURI :=
      match selectedGender', selectedMaleVoiceURI with
      | male, _ :: _ => Some selectedMaleVoiceURI
      | _, _ => None
      end in
    startQuiz wordsToQuiz selectedGender' voiceURI random now a
  else Returns a.

Inductive Event :=
| Start (availableWords : list VocabWord) (checkedWords : list jsstring)
        (gender : VoiceGender) (selectedMaleVoiceURI : jsstring)
        (random : Random) (now : Z)
| Change (value : jsstring)
| Submit
| ToggleListening (hasSpeechRecognition : bool)
| RecognitionStart
| RecognitionEnd
| RecognitionError
| RecognitionResult (event_results : list SpeechRecognitionResult)
| SpeedButton (rate : Number.t)
| Exit
| TimerFires (now : Z)
| Restart.

Section Machine.
Context {host : Host}.

(** An event of the mounted quiz screen: the handler, then the render. *)
Definition quizEvent (f : QuizScreenState -> QuizScreenState) (a : App)
  : completion App :=
  match quiz a with
  | Some q => q' <- render (f q) ;; Returns (setQuiz (Some q') a)
  | None => Returns a
  end.

(** The oldest pending timer fires. *)
Definition fireTimer (now : Z) (a : App) : completion App :=
  match timers a with
  | [] => Returns a
  | (inst, cb) :: rest =>
      let a' := setTimers rest a in
      match dwellCallback cb now with
      | Advance =>
          match quiz a' with
          | Some q =>
              if Nat.eqb inst (instance a') then
                let q1 := setCurrentIndex (S (currentIndex q))
                            (setUserInput [] (setFeedback idle q)) in
                (* the clean-up of the effect on [currentIndex] *)
                q2 <- render (stopListening q1) ;;
                Returns (setQuiz (Some q2) a')
              else Returns a'
          | None => Returns a'
          end
      | Finish finalResults durationSeconds =>
          Returns (finishQuiz finalResults durationSeconds a')
      end
  end.

Definition step (a : App) (e : Event) : completion App :=
  match e with
  | Start availableWords checkedWords gender uri random now =>
      match screen a with
      | SELECTION => handleStart availableWords checkedWords gender uri random now a
      | _ => Returns a
      end
  | Change value => quizEvent (setUserInput value) a
  | Submit =>
      match quiz a with
      | Some q =>
          r <- handleSubmit q ;;
          q' <- render (fst r) ;;
          Returns
            (setTimers
               (timers a ++
                match snd r with Some cb => [(instance a, cb)] | None => [] end)
               (setQuiz (Some q') a))
      | None => Returns a
      end
  | ToggleListening hasSpeechRecognition =>
      quizEvent (toggleListening hasSpeechRecognition) a
  | RecognitionStart => quizEvent (setIsListening true) a
  | RecognitionEnd => quizEvent (setIsListening false) a
  | RecognitionError => quizEvent (setIsListening false) a
  | RecognitionResult event_results => quizEvent (onresult event_results) a
  | SpeedButton rate => quizEvent (setSpeechRate rate) a
  | Exit =>
      match quiz a with
      | Some _ => Returns (restartApp a)
      | None => Returns a
      end
  | TimerFires now => fireTimer now a
  | Restart =>
      match screen a with
      | RESULT => Returns (restartApp a)
      | _ => Returns a
      end
  end.

Fixpoint run (a : App) (events : list Event) : completion App :=
  match events with
  | [] => Returns a
  | e :: events' => a' <- step a e ;; run a' events'
  end.

(** The states the application can be in. *)
Definition reachable (a : App) : Prop :=
  exists events, run initialApp events = Returns a.

End Machine.

(** ** Capture sessions and sample data *)

Section Capture.
Context {host : Host}.

(** One capture session: the recogniser emits [fragments] one after the
    other, and each [onresult] event carries every result of the
    session so far ([recognition.continuous] is set). *)
Fixpoint captureSession (seen fragments : list SpeechRecognitionResult)
         (q : QuizScreenState) : QuizScreenState :=
  match fragments with
  | [] => q
  | f :: fragments' =>
      captureSession (seen ++ [f]) fragments' (onresult (seen ++ [f]) q)
  end.
End Capture.

Definition fragment (s : string) : SpeechRecognitionResult :=
  {| transcript := js s; otherAlternatives := [] |}.

Definition cat : VocabWord :=
  {| id := js "1"; team := js "A"; lesson := js "L1";
     english := js "cat"; chinese := [35987] |}.

Definition dog : VocabWord :=
  {| id := js "2"; team := js "A"; lesson := js "L1";
     english := js "dog"; chinese := [29399] |}.

Definition apple : VocabWord :=
  {| id := js "3"; team := js "A"; lesson := js "L1";
     english := js "apple"; chinese := [34315; 26524] |}.

(** A quiz screen waiting for the answer to [w], with [input] typed. *)
Definition awaiting (w : VocabWord) (input : string) : QuizScreenState :=
  {| shuffledWords := [w]; currentIndex := 0%nat; userInput := js input;
     results := []; feedback := idle; isListening := false;
     speechRate := Number.lit 8 10; startTimeRef := 0;
     recognitionRef := false |}.

Definition attempt (w : VocabWord) (answer : string) (ok : bool) : QuizResult :=
  {| word := w; userAnswer := js answer; isCorrect := ok |}.

(** A results list of [n] attempts, the first [c] of them correct. *)
Definition tally (c n : nat) : list QuizResult :=
  repeat (attempt cat "cat" true) c ++ repeat (attempt cat "cet" false) (n - c).

Definition samantha : SpeechSynthesisVoice :=
  {| voiceURI := js "urn:voice:samantha"; name := js "Samantha";
     lang := js "en-US" |}.

(** A random source that always returns 0.25. *)
Definition quarter : Random := fun _ => Number.lit 1 4.

(** ** The invariant of the application *)

(** The pending timers that the instance [inst] made. *)
Definition timersOf (inst : nat) (pending : list (nat * DwellCallback))
  : list (nat * DwellCallback) :=
  filter (fun t => Nat.eqb (fst t) inst) pending.

(** What holds of a mounted quiz screen: the position is inside the
    sequence; while idle there is a record for each earlier position and
    no timer of this screen is pending; during feedback there is one
    more record and exactly one timer is pending, made at this position. *)
Definition quizInv (inst : nat) (pending : list (nat * DwellCallback))
           (q : QuizScreenState) : Prop :=
  (currentIndex q < length (shuffledWords q))%nat /\
  match feedback q with
  | idle =>
      length (results q) = currentIndex q /\ timersOf inst pending = []
  | _ =>
      length (results q) = S (currentIndex q) /\
      exists cb,
        timersOf inst pending = [(inst, cb)] /\
        captured_currentIndex cb = currentIndex q /\
        captured_shuffledWords cb = shuffledWords q
  end.

Definition Inv (a : App) : Prop :=
  Forall (fun t => (fst t <= instance a)%nat) (timers a) /\
  match quiz a with
  | Some q => quizInv (instance a) (timers a) q
  | None => True
  end.

(** Two states of the screen that agree on the progress of the quiz. *)
Definition sameProgress (q q' : QuizScreenState) : Prop :=
  shuffledWords q' = shuffledWords q /\
  currentIndex q' = currentIndex q /\
  results q' = results q /\
  feedback q' = feedback q.

(** ** Sample sessions and bounded checks *)

(** Two words are started, "cat" is typed and submitted: the feedback
    for the first position is on screen. *)
Definition firstAnswerEvents : list Event :=
  [Start [cat; dog] [id cat; id dog] female [] quarter 0;
   Change (js "cat"); Submit].

Definition afterFirstAnswer : App :=
  match @run asciiHost initialApp firstAnswerEvents with
  | Returns a => a
  | Throws _ => initialApp
  end.

Definition duringFirstFeedback : QuizScreenState :=
  match quiz afterFirstAnswer with
  | Some q => q
  | None => awaiting cat ""
  end.

(** A one-word session: the answer is submitted and, while its feedback
    is shown, the exit button is used. *)
Definition exitDuringLastFeedback (random : Random) (now : Z) : list Event :=
  [Start [cat] [id cat] female [] random now; Change (js "cat"); Submit; Exit].

(** Whether the double computation of the percentage agrees with the
    exact rounding for every pair of counts of a non-empty list of fewer
    than [bound] results. *)
Definition agreesBelow (bound : nat) : bool :=
  forallb
    (fun n =>
       forallb
         (fun c =>
            match percentageOf c n with
            | S754_nan | S754_infinity _ => false
            | p =>
                Number.eqb p
                  (Number.ofZ (round_half_up (100 * Z.of_nat c) (Z.of_nat n)))
            end)
         (seq 0 (S n)))
    (seq 1 (bound - 1)).

(** ** [SelectionScreen]: the voices offered in Dad mode *)

Definition selectionMaleKeywords : list jsstring :=
  map js
    ["male";
     "david"; "mark"; "guy"; "ryan"; "christopher"; "eric"; "george";
     "roger"; "sean"; "brian"; "matthew"; "joey"; "justin"; "stephen";
     "rishi"; "thomas"; "william"; "arthur"; "henry"; "oliver"; "liam";
     "aaron"; "connor"; "andrew"; "jacob"; "noah"; "ethan"; "mason";
     "logan"; "lucas"; "jack"; "benjamin"; "elijah"; "michael";
     "alexander"; "anthony"; "joshua";
     "alex"; "fred"; "tom"; "junior"; "ralph"; "albert"; "bruce"; "daniel";
     "james"]%string.

Section Selection.
Context {host : Host}.

(** The host's [String.prototype.localeCompare]: negative, zero or
    positive.  Nothing is assumed of it. *)
Variable localeCompare : jsstring -> jsstring -> Number.t.

(** [(name + ' ' + lang).toLowerCase()]. *)
Definition regionText (name' lang' : jsstring) : jsstring :=
  toLowerCase (name' ++ js " " ++ lang').

(** [getRegionPriority] of the [maleVoices] memo: six regions, else 99. *)
Definition getRegionPriority (name' lang' : jsstring) : Z :=
  let text := regionText name' lang' in
  if includes text (js "united states") || includes text (js "en-us")
     || includes text (js "en_us") then 1
  else if includes text (js "canada") || includes text (js "en-ca")
          || includes text (js "en_ca") then 2
  else if includes text (js "australia") || includes text (js "en-au")
          || includes text (js "en_au") then 3
  else if includes text (js "united kingdom") || includes text (js "en-gb")
          || includes text (js "en_gb") || includes text (js "british") then 4
  else if includes text (js "ireland") || includes text (js "en-ie")
          || includes text (js "en_ie") then 5
  else if includes text (js "india") || includes text (js "en-in")
          || includes text (js "en_in") then 6
  else 99.

(** [getRegionPriority] of the [allEnglishVoices] memo: four regions. *)
Definition getRegionPriorityEnglish (name' lang' : jsstring) : Z :=
  let text := regionText name' lang' in
  if includes text (js "united states") || includes text (js "en-us")
     || includes text (js "en_us") then 1
  else if includes text (js "canada") || includes text (js "en-ca")
          || includes text (js "en_ca") then 2
  else if includes text (js "australia") || includes text (js "en-au")
          || includes text (js "en_au") then 3
  else if includes text (js "united kingdom") || includes text (js "en-gb")
          || includes text (js "en_gb") || includes text (js "british") then 4
  else 99.

(** The comparator of both sorts: by region priority, then by name.  It
    has no state of its own; [k] is passed through. *)
Definition byRegionThenName (priority : jsstring -> jsstring -> Z)
           (a b : SpeechSynthesisVoice) (k : nat) : Number.t * nat :=
  let priorityA := priority (name a) (lang a) in
  let priorityB := priority (name b) (lang b) in
  (if negb (priorityA =? priorityB)
   then Number.sub (Number.ofZ priorityA) (Number.ofZ priorityB)
   else localeCompare (name a) (name b),
   k).

(** The filter of [maleVoices]: an English voice with a male keyword in
    its name. *)
Definition isMaleVoice (v : SpeechSynthesisVoice) : bool :=
  if negb (includes (lang v) (js "en")) then false
  else
    let nameLower := toLowerCase (name v) in
    existsb (fun kw => includes nameLower kw) selectionMaleKeywords.

Definition maleVoices (allVoices : list SpeechSynthesisVoice)
  : list SpeechSynthesisVoice :=
  fst (Array_sort (byRegionThenName getRegionPriority)
                  (filter isMaleVoice allVoices) 0%nat).

Definition allEnglishVoices (allVoices : list SpeechSynthesisVoice)
  : list SpeechSynthesisVoice :=
  fst (Array_sort (byRegionThenName getRegionPriorityEnglish)
                  (filter (fun v => includes (lang v) (js "en")) allVoices)
                  0%nat).

Definition voicesForDadMode (allVoices : list SpeechSynthesisVoice)
  : list SpeechSynthesisVoice :=
  if 0 <? Z.of_nat (length (maleVoices allVoices))
  then maleVoices allVoices
  else allEnglishVoices allVoices.

Definition nameHas (kw : jsstring) (v : SpeechSynthesisVoice) : bool :=
  includes (toLowerCase (name v)) kw.

(** The loop over [priorityNames]: the first name some voice has. *)
Fixpoint findByNames (voices : list SpeechSynthesisVoice)
         (names : list jsstring) : option SpeechSynthesisVoice :=
  match names with
  | [] => None
  | n :: names' =>
      match find (nameHas n) voices with
      | Some v => Some v
      | None => findByNames voices names'
      end
  end.

(** The voice the default-voice effect settles on, given a non-empty
    list and no voice chosen yet. *)
Definition chooseDefaultVoice (voices : list SpeechSynthesisVoice)
  : option SpeechSynthesisVoice :=
  (* 1. "Andrew", online or from the United States *)
  let v1 :=
    find (fun v =>
            nameHas (js "andrew") v
            && (nameHas (js "online") v || nameHas (js "united states") v
                || includes (lang v) (js "en-US")))
         voices in
  (* 2. any "Andrew" *)
  let v2 := orElse v1 (find (nameHas (js "andrew")) voices) in
  (* 3. the usual male voices *)
  let v3 :=
    orElse v2
           (findByNames voices
              (map js ["alex"; "david"; "daniel"; "james"; "tom"; "fred"]%string)) in
  (* 4. the first voice *)
  orElse v3 (nth_error voices 0).

(** The effect on [voicesForDadMode] and [selectedMaleVoiceURI]: the new
    value of [selectedMaleVoiceURI]. *)
Definition defaultVoiceEffect (voices : list SpeechSynthesisVoice)
           (selectedMaleVoiceURI : jsstring) : jsstring :=
  match voices, selectedMaleVoiceURI with
  | _ :: _, [] =>
      match chooseDefaultVoice voices with
      | Some v => voiceURI v
      | None => selectedMaleVoiceURI
      end
  | _, _ => selectedMaleVoiceURI
  end.

End Selection.

(** The values [getRegionPriority] returns. *)
Definition regionPriorities : list Z := [1; 2; 3; 4; 5; 6; 99].

(** ** [SelectionScreen]: the set of checked words

    A [Set<string>] is the list of its elements in insertion order,
    without repetition. *)

Definition Set_add (x : jsstring) (s : list jsstring) : list jsstring :=
  if has s x then s else s ++ [x].

Definition Set_delete (x : jsstring) (s : list jsstring) : list jsstring :=
  filter (fun y => negb (str_eqb x y)) s.

(** [new Set(ids)]. *)
Definition Set_of (ids : list jsstring) : list jsstring :=
  fold_left (fun s x => Set_add x s) ids [].

(** [toggleWord]: the next value of [checkedWords]. *)
Definition toggleWord (i : jsstring) (checkedWords : list jsstring)
  : list jsstring :=
  if has checkedWords i then Set_delete i checkedWords
  else Set_add i checkedWords.

(** [toggleAll]: the next value of [checkedWords]. *)
Definition toggleAll (availableWords : list VocabWord)
           (checkedWords : list jsstring) : list jsstring :=
  if Nat.eqb (length checkedWords) (length availableWords) then []
  else Set_of (map id availableWords).

(** ** More of what holds of a mounted quiz screen *)

(** The quiz screen is mounted exactly on the quiz screen of the router;
    its sequence is a rearrangement of the words the router holds; the
    records are about the words at the positions passed, in order; and a
    pending timer of this screen captured the records before the
    submission that made it, and this sequence. *)
Definition sessionInv (a : App) : Prop :=
  match quiz a with
  | Some q =>
      screen a = QUIZ /\
      Permutation (shuffledWords q) (selectedWords a) /\
      map word (results q) = firstn (length (results q)) (shuffledWords q) /\
      (forall cb, In (instance a, cb) (timers a) ->
                  captured_results cb ++ [captured_newResult cb] = results q)
  | None => screen a <> QUIZ
  end.

(** The parts of the router that only [startQuiz], [finishQuiz] and
    [restartApp] set. *)
Definition sameRouter (a a' : App) : Prop :=
  screen a' = screen a /\ selectedWords a' = selectedWords a /\
  instance a' = instance a.

(** ** More sample data *)

Definition david : SpeechSynthesisVoice :=
  {| voiceURI := js "urn:voice:david";
     name := js "Microsoft David - English (United States)";
     lang := js "en-US" |}.

Definition daniel : SpeechSynthesisVoice :=
  {| voiceURI := js "urn:voice:daniel"; name := js "Daniel";
     lang := js "en-GB" |}.

Definition amelie : SpeechSynthesisVoice :=
  {| voiceURI := js "urn:voice:amelie"; name := js "Amelie";
     lang := js "fr-FR" |}.

(** A [localeCompare] that calls every two names equal. *)
Definition noOrder : jsstring -> jsstring -> Number.t :=
  fun _ _ => Number.ofZ 0.

(** The card for [c] correct answers out of [n], as [ResultScreen]
    computes it from the two counts. *)
Definition classOfCounts (c n : nat) : OutcomeClass :=
  if Number.eqb (percentageOf c n) (Number.ofZ 100) then Perfect
  else if Number.ltb (percentageOf c n) (Number.ofZ 80) then Poor
  else Normal.

(** The card by exact arithmetic: Perfect when all are correct, Poor
    when the exact percentage is below 79.5, Normal otherwise. *)
Definition exactClass (c n : nat) : OutcomeClass :=
  if Nat.eqb c n then Perfect
  else if 200 * Z.of_nat c <? 159 * Z.of_nat n then Poor
  else Normal.

Definition OutcomeClass_eqb (x y : OutcomeClass) : bool :=
  match x, y with
  | Perfect, Perfect | Poor, Poor | Normal, Normal => true
  | _, _ => false
  end.

(** Whether the card agrees with the exact one for every pair of counts
    of a non-empty list of fewer than [bound] results. *)
Definition classAgreesBelow (bound : nat) : bool :=
  forallb
    (fun n =>
       forallb (fun c => OutcomeClass_eqb (classOfCounts c n) (exactClass c n))
               (seq 0 (S n)))
    (seq 1 (bound - 1)).

Ltac lower_ascii Hh :=
  unfold ascii_faithful in Hh;
  repeat match goal with
         | |- context [toLowerCase ?s] =>
             rewrite (Hh s) by (vm_compute; reflexivity)
         end.

(** * Properties *)

(** ** Strings *)

Lemma str_eqb_eq (s t : jsstring) : str_eqb s t = true <-> s = t.
Proof.
  revert t. induction s as [|c s IH]; intros [|d t]; simpl; split;
    try congruence; try reflexivity.
  - intros H. apply andb_prop in H. destruct H as [H1 H2].
    apply Z.eqb_eq in H1. apply IH in H2. congruence.
  - intros H. injection H as -> ->. rewrite Z.eqb_refl. simpl.
    apply IH. reflexivity.
Qed.

Lemma str_eqb_refl (s : jsstring) : str_eqb s s = true.
Proof. apply str_eqb_eq. reflexivity. Qed.

Lemma asciiHost_faithful : ascii_faithful asciiHost.
Proof.
  intros s. unfold toLowerCase, asciiHost.
  induction s as [|c s IH]; simpl; intros H; [reflexivity|].
  apply andb_prop in H. destruct H as [Hc Hs].
  rewrite Hc, (IH Hs). reflexivity.
Qed.

Lemma isLetter_isAscii (c : codeunit) : isLetter c = true -> isAscii c = true.
Proof. unfold isLetter, isAscii. lia. Qed.

Lemma stripNonLetters_ascii (s : jsstring) :
  forallb isAscii (stripNonLetters s) = true.
Proof.
  apply forallb_forall. intros c H.
  apply filter_In in H. apply isLetter_isAscii, H.
Qed.

(** On what the transcript filter leaves, [toLowerCase] is the ASCII map. *)
Lemma toLowerCase_letters (host : Host) (s : jsstring) :
  ascii_faithful host ->
  toLowerCase (stripNonLetters s) = map asciiLower (stripNonLetters s).
Proof. intros Hh. apply Hh, stripNonLetters_ascii. Qed.

(** ** Submission *)

(** C1: a submission in the idle state appends one record whose
    [isCorrect] flag is true exactly when the input, trimmed and
    lower-cased, is the same string as the current word's English text,
    trimmed and lower-cased; " Apple " against "apple" is correct and
    "appel" against "apple" is not. *)
Theorem handleSubmit_isCorrect
        (host : Host) (q : QuizScreenState) (w : VocabWord) :
  ascii_faithful host ->
  feedback q = idle ->
  currentWord q = Some w ->
  exists q' cb r,
    handleSubmit q = Returns (q', Some cb) /\
    results q' = results q ++ [r] /\
    word r = w /\
    userAnswer r = userInput q /\
    (isCorrect r = true <->
     toLowerCase (trim (userInput q)) = toLowerCase (trim (english w))) /\
    feedback q' = (if isCorrect r then correct else wrong) /\
    (english w = js "apple" -> userInput q = js " Apple " ->
     isCorrect r = true) /\
    (english w = js "apple" -> userInput q = js "appel" ->
     isCorrect r = false).
Proof.
  intros Hh Hidle Hw. unfold handleSubmit. rewrite Hidle, Hw. simpl.
  eexists _, _, _. split; [reflexivity|]. simpl.
  repeat split; try reflexivity.
  - apply str_eqb_eq.
  - apply str_eqb_eq.
  - intros -> ->. lower_ascii Hh. vm_compute. reflexivity.
  - intros -> ->. lower_ascii Hh. vm_compute. reflexivity.
Qed.

Lemma handleSubmit_isCorrect_witness :
  ascii_faithful asciiHost /\
  feedback (awaiting apple " Apple ") = idle /\
  currentWord (awaiting apple " Apple ") = Some apple /\
  exists q' cb r,
    @handleSubmit asciiHost (awaiting apple " Apple ") = Returns (q', Some cb) /\
    results q' = [r] /\ isCorrect r = true.
Proof.
  split; [exact asciiHost_faithful|].
  split; [reflexivity|]. split; [reflexivity|].
  destruct (handleSubmit_isCorrect asciiHost (awaiting apple " Apple ") apple
              asciiHost_faithful eq_refl eq_refl)
    as (q' & cb & r & H1 & H2 & _ & _ & _ & _ & H3 & _).
  exists q', cb, r. split; [exact H1|]. split; [exact H2|].
  apply H3; reflexivity.
Defined.

(** ** Transcript cleaning *)

Lemma fold_left_transcripts (rs : list SpeechRecognitionResult) (acc : jsstring) :
  fold_left (fun acc r => acc ++ transcript r) rs acc
  = acc ++ concat (map transcript rs).
Proof.
  revert acc. induction rs as [|r rs IH]; intros acc; simpl.
  - symmetry. apply app_nil_r.
  - rewrite IH, app_assoc. reflexivity.
Qed.

Lemma onresult_userInput (host : Host) (rs : list SpeechRecognitionResult)
      (q : QuizScreenState) :
  userInput (onresult rs q)
  = toLowerCase (stripNonLetters (concat (map transcript rs))).
Proof. unfold onresult. simpl. rewrite fold_left_transcripts. reflexivity. Qed.

Lemma captureSession_from (host : Host)
      (fragments seen : list SpeechRecognitionResult) (q : QuizScreenState) :
  fragments <> [] ->
  userInput (captureSession seen fragments q)
  = toLowerCase
      (stripNonLetters (concat (map transcript (seen ++ fragments)))).
Proof.
  revert seen q. induction fragments as [|f fs IH]; intros seen q Hne.
  - congruence.
  - destruct fs as [|f' fs'].
    + change (captureSession seen [f] q) with (onresult (seen ++ [f]) q).
      apply onresult_userInput.
    + change (captureSession seen (f :: f' :: fs') q)
        with (captureSession (seen ++ [f]) (f' :: fs')
                (onresult (seen ++ [f]) q)).
      rewrite IH by discriminate. rewrite <- app_assoc. reflexivity.
Qed.

(** C8: during a capture session the input buffer is the concatenation
    of all the fragments emitted so far, without the characters that are
    not letters of the alphabet, lower-cased; the fragments "A ", "P P",
    "LE!" give "apple". *)
Theorem captureSession_cleaned
        (host : Host) (fragments : list SpeechRecognitionResult)
        (q : QuizScreenState) :
  ascii_faithful host ->
  fragments <> [] ->
  userInput (captureSession [] fragments q)
  = toLowerCase (filter isLetter (concat (map transcript fragments))) /\
  userInput (captureSession [] fragments q)
  = map asciiLower (filter isLetter (concat (map transcript fragments))) /\
  userInput
    (captureSession [] [fragment "A "; fragment "P P"; fragment "LE!"] q)
  = js "apple".
Proof.
  intros Hh Hne.
  assert (G : forall fs, fs <> [] ->
                userInput (captureSession [] fs q)
                = toLowerCase (stripNonLetters (concat (map transcript fs)))).
  { intros fs Hfs. apply (captureSession_from host fs [] q Hfs). }
  split; [apply G, Hne|].
  split.
  - rewrite (G _ Hne). apply toLowerCase_letters, Hh.
  - rewrite G by discriminate. rewrite toLowerCase_letters by exact Hh.
    vm_compute. reflexivity.
Qed.

Lemma captureSession_cleaned_witness :
  ascii_faithful asciiHost /\
  [fragment "A "; fragment "P P"] <> [] /\
  userInput (@captureSession asciiHost [] [fragment "A "; fragment "P P"]
               (awaiting apple ""))
  = js "app".
Proof.
  split; [exact asciiHost_faithful|]. split; [discriminate|].
  destruct (captureSession_cleaned asciiHost [fragment "A "; fragment "P P"]
              (awaiting apple "") asciiHost_faithful
              ltac:(discriminate)) as (_ & H & _).
  exact H.
Defined.

(** ** Pitch of an utterance *)

Lemma lowered_pitch_differs : Number.lit 7 10 <> Number.ofZ 1.
Proof. vm_compute. discriminate. Qed.

Lemma selectVoice_male_found
      (host : Host) (voices : list SpeechSynthesisVoice)
      (specificVoiceURI : option jsstring) :
  snd (selectVoice voices male specificVoiceURI)
  = isSome (findSpecific voices specificVoiceURI)
    || isSome (find (keywordMatch maleKeywords) voices).
Proof.
  unfold selectVoice.
  destruct (findSpecific voices specificVoiceURI) as [v|]; simpl.
  - reflexivity.
  - destruct (find (keywordMatch maleKeywords) voices); reflexivity.
Qed.

Lemma selectVoice_male_fallback
      (host : Host) (voices : list SpeechSynthesisVoice)
      (specificVoiceURI : option jsstring) :
  findSpecific voices specificVoiceURI = None ->
  find (keywordMatch maleKeywords) voices = None ->
  fst (selectVoice voices male specificVoiceURI)
  = orElse (find (fun v => str_eqb (lang v) (js "en-US")) voices)
           (find (fun v => includes (lang v) (js "en")) voices).
Proof.
  intros H1 H2. unfold selectVoice. rewrite H1, H2. reflexivity.
Qed.

(** C7 as stated does not hold: it is not the male keyword match alone
    that decides the pitch.  A voice found through the URI the user
    picked keeps the default pitch although no voice of the catalogue
    matches a male keyword. *)
Lemma speakWord_pitch_not_by_keyword_alone :
  ~ (forall (host : Host) (voices : list SpeechSynthesisVoice)
            (text : jsstring) (specificVoiceURI : option jsstring)
            (speechRate : Number.t) (u : SpeechSynthesisUtterance),
        speakWord true voices text male specificVoiceURI speechRate = Some u ->
        (utterance_pitch u = Number.lit 7 10 <->
         find (keywordMatch maleKeywords) voices = None)).
Proof.
  intros H.
  pose proof (H asciiHost [samantha] (js "cat") (Some (voiceURI samantha))
                (Number.lit 8 10) _ eq_refl) as [_ G].
  assert (K : find (@keywordMatch asciiHost maleKeywords) [samantha] = None)
    by (vm_compute; reflexivity).
  specialize (G K). vm_compute in G. discriminate.
Qed.

(** C7, amended: with gender male the pitch is lowered to 0.7 exactly
    when neither the look-up of the voice URI the caller passed nor the
    male keyword search found a voice; otherwise it stays 1.  A voice
    found by the en-US or the any-English fall-back does not count. *)
Theorem speakWord_male_pitch
        (host : Host) (voices : list SpeechSynthesisVoice) (text : jsstring)
        (specificVoiceURI : option jsstring) (speechRate : Number.t) :
  exists u,
    speakWord true voices text male specificVoiceURI speechRate = Some u /\
    (utterance_pitch u = Number.lit 7 10 <->
     findSpecific voices specificVoiceURI = None /\
     find (keywordMatch maleKeywords) voices = None) /\
    (utterance_pitch u = Number.ofZ 1 <->
     findSpecific voices specificVoiceURI <> None \/
     find (keywordMatch maleKeywords) voices <> None) /\
    (utterance_pitch u = Number.lit 7 10 ->
     utterance_voice u
     = orElse (find (fun v => str_eqb (lang v) (js "en-US")) voices)
              (find (fun v => includes (lang v) (js "en")) voices)).
Proof.
  pose proof (selectVoice_male_found host voices specificVoiceURI) as Hf.
  pose proof (selectVoice_male_fallback host voices specificVoiceURI) as Hv.
  pose proof lowered_pitch_differs as Hd.
  unfold speakWord. cbn [negb].
  destruct (selectVoice voices male specificVoiceURI) as [sel found].
  cbn [fst snd] in Hf, Hv.
  eexists. split; [reflexivity|]. cbn [utterance_pitch utterance_voice].
  destruct (findSpecific voices specificVoiceURI) as [v|];
    destruct (find (keywordMatch maleKeywords) voices) as [v'|];
    cbn [isSome orb] in Hf; subst found; cbn [negb].
  - split; [|split].
    + split; [intros E; symmetry in E; contradiction
             | intros [E _]; discriminate].
    + split; [intros _; left; discriminate | reflexivity].
    + intros E. symmetry in E. contradiction.
  - split; [|split].
    + split; [intros E; symmetry in E; contradiction
             | intros [E _]; discriminate].
    + split; [intros _; left; discriminate | reflexivity].
    + intros E. symmetry in E. contradiction.
  - split; [|split].
    + split; [intros E; symmetry in E; contradiction
             | intros [_ E]; discriminate].
    + split; [intros _; right; discriminate | reflexivity].
    + intros E. symmetry in E. contradiction.
  - split; [|split].
    + split; [intros _; split; reflexivity | reflexivity].
    + split; [intros E; contradiction | intros [E|E]; congruence].
    + intros _. apply Hv; reflexivity.
Qed.

Lemma speakWord_male_pitch_witness :
  exists u,
    @speakWord asciiHost true [samantha] (js "cat") male None (Number.lit 8 10)
    = Some u /\
    utterance_pitch u = Number.lit 7 10 /\
    utterance_voice u = Some samantha.
Proof.
  destruct (speakWord_male_pitch asciiHost [samantha] (js "cat") None
              (Number.lit 8 10)) as (u & H1 & H2 & _ & H4).
  exists u. split; [exact H1|].
  assert (P : utterance_pitch u = Number.lit 7 10).
  { apply H2. split; vm_compute; reflexivity. }
  split; [exact P|]. rewrite (H4 P). vm_compute. reflexivity.
Defined.

(** ** The summary *)

Lemma correctCount_tally (c n : nat) :
  (c <= n)%nat -> correctCount (tally c n) = c /\ total (tally c n) = n.
Proof.
  intros H. unfold correctCount, total, tally. split.
  - rewrite filter_app, length_app.
    assert (A : forall k, filter isCorrect (repeat (attempt cat "cat" true) k)
                          = repeat (attempt cat "cat" true) k)
      by (induction k; simpl; congruence).
    assert (B : forall k, filter isCorrect (repeat (attempt cat "cet" false) k)
                          = [])
      by (induction k; simpl; congruence).
    rewrite A, B, repeat_length. simpl. lia.
  - rewrite length_app, !repeat_length. lia.
Qed.

Lemma eq_100_not_below_80 (p : Number.t) :
  Number.eqb p (Number.ofZ 100) = true -> Number.ltb p (Number.ofZ 80) = false.
Proof.
  replace (Number.ofZ 100) with (S754_finite false 7036874417766400 (-46))
    by (vm_compute; reflexivity).
  replace (Number.ofZ 80) with (S754_finite false 5629499534213120 (-46))
    by (vm_compute; reflexivity).
  unfold Number.eqb, Number.ltb, SFeqb, SFltb.
  destruct p as [[]|[]| |[] m e]; cbn [SFcompare]; try discriminate.
  destruct (Z.compare e (-46)) eqn:Ee; try discriminate.
  destruct (Pos.compare_cont Eq m 7036874417766400) eqn:Em; try discriminate.
  apply Pos.compare_eq in Em. subst m. intros _. reflexivity.
Qed.

(** The classes are read off the displayed percentage. *)
Lemma outcomeClass_spec (results : list QuizResult) :
  (outcomeClass results = Perfect <->
   Number.eqb (percentage results) (Number.ofZ 100) = true) /\
  (outcomeClass results = Poor <->
   Number.ltb (percentage results) (Number.ofZ 80) = true) /\
  (outcomeClass results = Normal <->
   Number.eqb (percentage results) (Number.ofZ 100) = false /\
   Number.ltb (percentage results) (Number.ofZ 80) = false).
Proof.
  pose proof (eq_100_not_below_80 (percentage results)) as H.
  unfold outcomeClass, isPerfect, isBad.
  destruct (Number.eqb (percentage results) (Number.ofZ 100));
    destruct (Number.ltb (percentage results) (Number.ofZ 80));
    repeat split; intros; try congruence; try tauto;
    try (specialize (H eq_refl); discriminate);
    try (destruct H0; congruence).
Qed.

Lemma forallb_seq (f : nat -> bool) (start len x : nat) :
  forallb f (seq start len) = true -> (start <= x < start + len)%nat ->
  f x = true.
Proof.
  intros H Hx. rewrite forallb_forall in H. apply H, in_seq, Hx.
Qed.

Lemma agreesBelow_40 :
  ltac:(let t := eval cbv beta delta [agreesBelow] in (agreesBelow 40 = true)
        in exact t).
Proof. vm_compute. reflexivity. Qed.

Lemma percentageOf_exact_below_40 (c n : nat) :
  (0 < n)%nat -> (n < 40)%nat -> (c <= n)%nat ->
  Number.eqb (percentageOf c n)
             (Number.ofZ (round_half_up (100 * Z.of_nat c) (Z.of_nat n)))
  = true.
Proof.
  intros H0 H1 H2.
  pose proof (forallb_seq _ 1 (40 - 1) n agreesBelow_40 ltac:(lia)) as A.
  cbv beta in A.
  pose proof (forallb_seq _ 0 (S n) c A ltac:(lia)) as B. cbv beta in B.
  destruct (percentageOf c n); try discriminate; exact B.
Qed.

(** Two-word sessions: one correct answer out of two is 50 per cent and
    the class is Poor; two out of two is 100 per cent, Perfect. *)
Lemma summary_scenarios :
  percentage [attempt cat "cet" false; attempt dog "dog" true] = Number.ofZ 50 /\
  outcomeClass [attempt cat "cet" false; attempt dog "dog" true] = Poor /\
  percentage [attempt cat "cat" true; attempt dog "dog" true] = Number.ofZ 100 /\
  outcomeClass [attempt cat "cat" true; attempt dog "dog" true] = Perfect.
Proof. vm_compute. repeat split. Qed.

(** C2, at 23 correct answers out of 40: the exact quotient is 57.5 and
    rounds to 58, but the product of the double quotient 23/40 with 100
    is 57.49999999999999 and the screen shows 57.  One correct answer out
    of 8 is the exact tie 12.5 and the screen shows 13, so the ties do
    not follow one rule. *)
Theorem percentage_23_of_40 :
  correctCount (tally 23 40) = 23%nat /\
  total (tally 23 40) = 40%nat /\
  round_half_up (100 * 23) 40 = 58 /\
  Number.mul (Number.div (Number.ofZ 23) (Number.ofZ 40)) (Number.ofZ 100)
  = S754_finite false 8092405580431359 (-47) /\
  percentage (tally 23 40) = Number.ofZ 57 /\
  Number.eqb (percentage (tally 23 40)) (Number.ofZ 58) = false /\
  outcomeClass (tally 23 40) = Poor /\
  percentage (tally 1 8) = Number.ofZ 13.
Proof. vm_compute. repeat split. Qed.

(** C10: on the empty results list the quotient 0/0 is NaN and so is the
    percentage shown; NaN is neither equal to 100 nor below 80, so the
    class is Normal. *)
Theorem summary_of_no_results :
  Number.div (Number.ofNat (correctCount [])) (Number.ofNat (total []))
  = Number.NaN /\
  percentage [] = Number.NaN /\
  isPerfect [] = false /\
  isBad [] = false /\
  outcomeClass [] = Normal.
Proof. vm_compute. repeat split. Qed.

(** ** The shuffle *)

Section SortPermutes.
Context {A : Type}.
Variable comparefn : A -> A -> nat -> Number.t * nat.

Lemma insertSorted_Permutation (x : A) (sorted : list A) (k : nat) :
  Permutation (fst (insertSorted comparefn x sorted k)) (x :: sorted).
Proof.
  revert k. induction sorted as [|y rest IH]; intros k; simpl.
  - apply Permutation_refl.
  - destruct (comparefn x y k) as [v k'].
    destruct (Number.ltb v _).
    + apply Permutation_refl.
    + specialize (IH k').
      destruct (insertSorted comparefn x rest k') as [r k'']. simpl in *.
      apply perm_trans with (y :: x :: rest).
      * apply perm_skip, IH.
      * apply perm_swap.
Qed.

Lemma sortFrom_Permutation (rest sorted : list A) (k : nat) :
  Permutation (fst (sortFrom comparefn sorted rest k)) (sorted ++ rest).
Proof.
  revert sorted k. induction rest as [|x rest IH]; intros sorted k; simpl.
  - rewrite app_nil_r. apply Permutation_refl.
  - pose proof (insertSorted_Permutation x sorted k) as Hi.
    destruct (insertSorted comparefn x sorted k) as [sorted' k']. simpl in Hi.
    eapply perm_trans; [apply IH|].
    apply perm_trans with ((x :: sorted) ++ rest).
    + apply Permutation_app_tail, Hi.
    + simpl. apply Permutation_middle.
Qed.

(** Whatever the comparator answers, the sort permutes its input. *)
Lemma Array_sort_Permutation (l : list A) (k : nat) :
  Permutation (fst (Array_sort comparefn l k)) l.
Proof. apply (sortFrom_Permutation l [] k). Qed.
End SortPermutes.

Lemma shuffle_Permutation (random : Random) (words : list VocabWord) :
  Permutation (shuffle random words) words.
Proof. apply Array_sort_Permutation. Qed.

Lemma mountQuizScreen_returns
      (words : list VocabWord) (random : Random) (now : Z) :
  words <> [] ->
  exists q,
    mountQuizScreen words random now = Returns q /\
    shuffledWords q = shuffle random words.
Proof.
  intros Hne. unfold mountQuizScreen, render, currentWord.
  cbn [shuffledWords currentIndex].
  pose proof (shuffle_Permutation random words) as Hp.
  destruct (shuffle random words) as [|w ws] eqn:E.
  - apply Permutation_nil in Hp. congruence.
  - cbn [nth_error]. eexists. split; reflexivity.
Qed.

(** C4: for a non-empty list of words the quiz screen mounts, and its
    sequence is a permutation of the input: the same items, hence the
    same multiset of ids, and the same length. *)
Theorem mountQuizScreen_permutation
        (words : list VocabWord) (random : Random) (now : Z) :
  words <> [] ->
  exists q,
    mountQuizScreen words random now = Returns q /\
    Permutation (shuffledWords q) words /\
    Permutation (map id (shuffledWords q)) (map id words) /\
    length (shuffledWords q) = length words.
Proof.
  intros Hne.
  destruct (mountQuizScreen_returns words random now Hne) as (q & Hq & Hs).
  pose proof (shuffle_Permutation random words) as Hp. rewrite <- Hs in Hp.
  exists q. split; [exact Hq|]. split; [exact Hp|]. split.
  - apply Permutation_map, Hp.
  - apply Permutation_length, Hp.
Qed.

Lemma mountQuizScreen_permutation_witness :
  [cat; dog; apple] <> [] /\
  exists q,
    mountQuizScreen [cat; dog; apple] quarter 0 = Returns q /\
    shuffledWords q = [apple; dog; cat] /\
    Permutation (map id (shuffledWords q)) (map id [cat; dog; apple]).
Proof.
  split; [discriminate|].
  destruct (mountQuizScreen_permutation [cat; dog; apple] quarter 0
              ltac:(discriminate)) as (q & H1 & _ & H3 & _).
  exists q. split; [exact H1|]. split; [|exact H3].
  vm_compute in H1. injection H1 as <-. reflexivity.
Defined.

(** ** The session invariant *)

Lemma quizInv_sameProgress inst pending q q' :
  sameProgress q q' -> quizInv inst pending q -> quizInv inst pending q'.
Proof.
  intros (Hw & Hi & Hr & Hf) [Hlt H]. unfold quizInv.
  rewrite Hw, Hi, Hr, Hf. split; assumption.
Qed.

Lemma render_defined (q : QuizScreenState) :
  (currentIndex q < length (shuffledWords q))%nat -> render q = Returns q.
Proof.
  intros H. unfold render, currentWord.
  destruct (nth_error (shuffledWords q) (currentIndex q)) eqn:E;
    [reflexivity|].
  apply nth_error_None in E. lia.
Qed.

Lemma currentWord_defined (q : QuizScreenState) :
  (currentIndex q < length (shuffledWords q))%nat ->
  exists w, currentWord q = Some w.
Proof.
  intros H. unfold currentWord.
  destruct (nth_error (shuffledWords q) (currentIndex q)) eqn:E;
    [eexists; reflexivity|].
  apply nth_error_None in E. lia.
Qed.

Lemma timersOf_fresh inst pending :
  Forall (fun t => (fst t <= inst)%nat) pending ->
  timersOf (S inst) pending = [].
Proof.
  induction 1 as [|[i cb] l Hi _ IH]; simpl; [reflexivity|].
  simpl in Hi. destruct (Nat.eqb_spec i (S inst)); [lia|exact IH].
Qed.

Lemma setQuiz_same (a : App) (q : QuizScreenState) :
  quiz a = Some q -> setQuiz (Some q) a = a.
Proof. destruct a; simpl; intros ->; reflexivity. Qed.

Lemma setTimers_same (a : App) : setTimers (timers a ++ []) a = a.
Proof. destruct a; simpl. rewrite app_nil_r. reflexivity. Qed.

Section Invariant.
Context {host : Host}.

(** A handler that leaves the progress alone keeps the invariant. *)
Lemma quizEvent_Inv (f : QuizScreenState -> QuizScreenState) (a : App) :
  (forall q, sameProgress q (f q)) ->
  Inv a -> exists a', quizEvent f a = Returns a' /\ Inv a'.
Proof.
  intros Hf [Ht Hq]. unfold quizEvent.
  destruct (quiz a) as [q|] eqn:E.
  - pose proof (quizInv_sameProgress _ _ _ _ (Hf q) Hq) as Hq'.
    rewrite (render_defined (f q)) by apply Hq'. simpl.
    eexists. split; [reflexivity|]. split; simpl; assumption.
  - eexists. split; [reflexivity|]. split; [assumption|].
    rewrite E. exact I.
Qed.

Lemma handleSubmit_feedback_shown (q : QuizScreenState) :
  feedback q <> idle -> handleSubmit q = Returns (q, None).
Proof.
  intros H. unfold handleSubmit.
  destruct (feedback q); [congruence| |]; reflexivity.
Qed.

Lemma submit_Inv (a : App) :
  Inv a -> exists a', step a Submit = Returns a' /\ Inv a'.
Proof.
  intros [Ht Hq]. simpl.
  destruct (quiz a) as [q|] eqn:E.
  2:{ eexists. split; [reflexivity|]. split; [assumption|].
      rewrite E. exact I. }
  destruct Hq as [Hlt Hq].
  destruct (feedback q) eqn:Ef.
  - (* idle: a record is appended and a timer is scheduled *)
    destruct (currentWord_defined q Hlt) as [w Hw].
    unfold handleSubmit. rewrite Ef, Hw. cbn [isIdle negb bind fst snd].
    rewrite render_defined by (simpl; exact Hlt).
    cbn [bind]. eexists. split; [reflexivity|].
    destruct Hq as [Hlen Hmine].
    split; cbn [timers setTimers setQuiz instance quiz].
    + apply Forall_app. split; [assumption|].
      constructor; [simpl; lia|constructor].
    + split; [simpl; exact Hlt|].
      assert (Hm : timersOf (instance a)
                     (timers a ++
                      [(instance a,
                        {| captured_currentIndex := currentIndex q;
                           captured_shuffledWords := shuffledWords q;
                           captured_results := results q;
                           captured_newResult :=
                             {| word := w; userAnswer := userInput q;
                                isCorrect :=
                                  str_eqb (toLowerCase (trim (userInput q)))
                                          (toLowerCase (trim (english w))) |};
                           captured_startTime := startTimeRef q |})])
                   = [(instance a,
                        {| captured_currentIndex := currentIndex q;
                           captured_shuffledWords := shuffledWords q;
                           captured_results := results q;
                           captured_newResult :=
                             {| word := w; userAnswer := userInput q;
                                isCorrect :=
                                  str_eqb (toLowerCase (trim (userInput q)))
                                          (toLowerCase (trim (english w))) |};
                           captured_startTime := startTimeRef q |})]).
      { unfold timersOf in *. rewrite filter_app, Hmine. simpl.
        rewrite Nat.eqb_refl. reflexivity. }
      destruct (str_eqb (toLowerCase (trim (userInput q)))
                        (toLowerCase (trim (english w)))) eqn:Es;
        cbn [feedback setResults setFeedback results currentIndex
             shuffledWords stopListening setIsListening setRecognitionRef];
        (split; [rewrite length_app; simpl; lia|]);
        eexists; (split; [exact Hm|]); split; reflexivity.
  - rewrite handleSubmit_feedback_shown by congruence.
    cbn [bind fst snd]. rewrite render_defined by exact Hlt. cbn [bind].
    rewrite setQuiz_same by exact E. rewrite setTimers_same.
    eexists. split; [reflexivity|]. split; [assumption|].
    rewrite E. split; [exact Hlt|]. rewrite Ef. exact Hq.
  - rewrite handleSubmit_feedback_shown by congruence.
    cbn [bind fst snd]. rewrite render_defined by exact Hlt. cbn [bind].
    rewrite setQuiz_same by exact E. rewrite setTimers_same.
    eexists. split; [reflexivity|]. split; [assumption|].
    rewrite E. split; [exact Hlt|]. rewrite Ef. exact Hq.
Qed.

End Invariant.

Section Preservation.
Context {host : Host}.

Lemma restartApp_Inv (a : App) : Inv a -> Inv (restartApp a).
Proof. intros [Ht _]. split; simpl; [assumption|exact I]. Qed.

Lemma mountQuizScreen_initial words random now q :
  mountQuizScreen words random now = Returns q ->
  currentIndex q = 0%nat /\ results q = [] /\ feedback q = idle /\
  shuffledWords q = shuffle random words /\
  (0 < length (shuffledWords q))%nat.
Proof.
  unfold mountQuizScreen, render, currentWord.
  cbn [shuffledWords currentIndex].
  destruct (shuffle random words) as [|w ws] eqn:Es;
    cbn [nth_error]; intros H; [discriminate|].
  injection H as <-. cbn [shuffledWords currentIndex results feedback length].
  repeat split. lia.
Qed.

Lemma handleStart_Inv availableWords checkedWords gender uri random now a :
  Inv a ->
  exists a',
    handleStart availableWords checkedWords gender uri random now a
    = Returns a' /\ Inv a'.
Proof.
  intros HI. unfold handleStart.
  set (wordsToQuiz := filter (fun w => has checkedWords (id w)) availableWords).
  destruct (0 <? Z.of_nat (length wordsToQuiz)) eqn:E.
  2:{ eexists. split; [reflexivity|assumption]. }
  assert (Hne : wordsToQuiz <> []).
  { intros H0. rewrite H0 in E. discriminate. }
  unfold startQuiz.
  destruct (mountQuizScreen_returns wordsToQuiz random now Hne)
    as (q & Hq & _).
  rewrite Hq. cbn [bind]. eexists. split; [reflexivity|].
  destruct (mountQuizScreen_initial _ _ _ _ Hq) as (Hi & Hr & Hf & _ & Hl).
  destruct HI as [Ht _].
  split; cbn [timers instance quiz].
  - eapply Forall_impl; [|exact Ht]. cbn beta. intros; lia.
  - unfold quizInv. rewrite Hi, Hr, Hf. split; [exact Hl|].
    split; [reflexivity|]. apply timersOf_fresh, Ht.
Qed.

Lemma fireTimer_Inv (now : Z) (a : App) :
  Inv a -> exists a', fireTimer now a = Returns a' /\ Inv a'.
Proof.
  intros [Ht Hq]. unfold fireTimer.
  destruct (timers a) as [|[inst cb] rest] eqn:Et.
  { eexists. split; [reflexivity|]. unfold Inv. rewrite Et.
    split; assumption. }
  assert (Hrest : Forall (fun t => (fst t <= instance a)%nat) rest)
    by (inversion Ht; assumption).
  destruct (dwellCallback cb now) as [|finalResults d] eqn:Ed.
  2:{ eexists. split; [reflexivity|]. split; simpl; [assumption|exact I]. }
  cbn [quiz setTimers instance].
  destruct (quiz a) as [q|] eqn:Eq.
  2:{ eexists. split; [reflexivity|].
      split; simpl; [assumption|rewrite Eq; exact I]. }
  destruct (Nat.eqb_spec inst (instance a)) as [->|Hother].
  - (* the timer of the mounted screen *)
    destruct Hq as [Hlt Hq]. unfold timersOf in Hq. simpl in Hq.
    rewrite Nat.eqb_refl in Hq.
    assert (Hcb : length (results q) = S (currentIndex q) /\
                  filter (fun t => Nat.eqb (fst t) (instance a)) rest = [] /\
                  captured_currentIndex cb = currentIndex q /\
                  captured_shuffledWords cb = shuffledWords q).
    { destruct (feedback q).
      - destruct Hq as [_ Hq]. discriminate.
      - destruct Hq as [Hl (cb' & Hm & Hi & Hw)].
        injection Hm as <- Hm. auto.
      - destruct Hq as [Hl (cb' & Hm & Hi & Hw)].
        injection Hm as <- Hm. auto. }
    destruct Hcb as (Hl & Hm & Hi & Hw).
    unfold dwellCallback in Ed. rewrite Hi, Hw in Ed.
    destruct (Z.of_nat (currentIndex q)
              <? Z.of_nat (length (shuffledWords q)) - 1) eqn:Elt;
      [|discriminate].
    apply Z.ltb_lt in Elt.
    rewrite render_defined by (simpl; lia). cbn [bind].
    eexists. split; [reflexivity|].
    split; cbn [timers setTimers setQuiz instance quiz]; [assumption|].
    split; [simpl; lia|]. simpl. split; [lia|exact Hm].
  - (* a timer left by an earlier screen *)
    eexists. split; [reflexivity|].
    split; cbn [timers setTimers instance quiz]; [assumption|].
    rewrite Eq. unfold quizInv, timersOf in *. simpl in Hq.
    destruct (Nat.eqb_spec inst (instance a)); [contradiction|].
    exact Hq.
Qed.

(** Every event is handled without an exception and keeps the
    invariant. *)
Lemma step_Inv (a : App) (e : Event) :
  Inv a -> exists a', step a e = Returns a' /\ Inv a'.
Proof.
  intros HI. destruct e; cbn [step].
  - destruct (screen a); try (eexists; split; [reflexivity|assumption]).
    apply handleStart_Inv, HI.
  - apply quizEvent_Inv; [|exact HI]. intros q. repeat split.
  - apply (submit_Inv a HI).
  - apply quizEvent_Inv; [|exact HI]. intros q.
    unfold toggleListening, stopListening, startListening.
    destruct (isListening q); [repeat split|].
    destruct hasSpeechRecognition; repeat split.
  - apply quizEvent_Inv; [|exact HI]. intros q. repeat split.
  - apply quizEvent_Inv; [|exact HI]. intros q. repeat split.
  - apply quizEvent_Inv; [|exact HI]. intros q. repeat split.
  - apply quizEvent_Inv; [|exact HI]. intros q. repeat split.
  - apply quizEvent_Inv; [|exact HI]. intros q. repeat split.
  - destruct (quiz a); eexists; (split; [reflexivity|]);
      [apply restartApp_Inv|]; assumption.
  - apply fireTimer_Inv, HI.
  - destruct (screen a); eexists; (split; [reflexivity|]);
      try assumption. apply restartApp_Inv, HI.
Qed.

Lemma Inv_initial : Inv initialApp.
Proof. split; simpl; [constructor|exact I]. Qed.

Lemma run_Inv (events : list Event) (a : App) :
  Inv a -> exists a', run a events = Returns a' /\ Inv a'.
Proof.
  revert a. induction events as [|e events IH]; intros a HI; simpl.
  - eexists. split; [reflexivity|assumption].
  - destruct (step_Inv a e HI) as (a1 & H1 & HI1).
    rewrite H1. cbn [bind]. apply IH, HI1.
Qed.

(** No sequence of events makes a handler or a render throw. *)
Lemma run_total (events : list Event) :
  exists a, run initialApp events = Returns a.
Proof.
  destruct (run_Inv events initialApp Inv_initial) as (a & H & _).
  exists a. exact H.
Qed.

Lemma reachable_Inv (a : App) : reachable a -> Inv a.
Proof.
  intros [events H].
  destruct (run_Inv events initialApp Inv_initial) as (a' & H' & HI).
  congruence.
Qed.

End Preservation.

Section Session.
Context {host : Host}.

Lemma step_Submit_feedback_shown (a : App) (q : QuizScreenState) :
  quiz a = Some q -> feedback q <> idle ->
  (currentIndex q < length (shuffledWords q))%nat ->
  step a Submit = Returns a.
Proof.
  intros Hq Hf Hlt. cbn [step]. rewrite Hq.
  rewrite handleSubmit_feedback_shown by exact Hf.
  cbn [bind fst snd]. rewrite render_defined by exact Hlt. cbn [bind].
  rewrite setQuiz_same by exact Hq. rewrite setTimers_same. reflexivity.
Qed.

Lemma step_Submit_idle (a : App) (q : QuizScreenState) :
  quiz a = Some q -> feedback q = idle ->
  (currentIndex q < length (shuffledWords q))%nat ->
  exists q' cb,
    step a Submit
    = Returns (setTimers (timers a ++ [(instance a, cb)])
                         (setQuiz (Some q') a)) /\
    feedback q' <> idle /\
    currentIndex q' = currentIndex q /\
    shuffledWords q' = shuffledWords q /\
    results q' = results q ++ [captured_newResult cb].
Proof.
  intros Hq Hf Hlt. cbn [step]. rewrite Hq.
  destruct (currentWord_defined q Hlt) as [w Hw].
  unfold handleSubmit. rewrite Hf, Hw. cbn [isIdle negb bind fst snd].
  rewrite render_defined by exact Hlt. cbn [bind].
  eexists _, _. split; [reflexivity|].
  cbn [captured_newResult].
  destruct (str_eqb (toLowerCase (trim (userInput q)))
                    (toLowerCase (trim (english w))));
    repeat split; discriminate.
Qed.

(** C3: in every reachable state with the quiz screen mounted (the
    session has not finished), the number of records equals the
    position while the feedback is idle and is one more while feedback
    is shown; a submission in the idle state leads to such a state. *)
Theorem results_length_invariant (a : App) (q : QuizScreenState) :
  reachable a ->
  quiz a = Some q ->
  (feedback q = idle -> length (results q) = currentIndex q) /\
  (feedback q <> idle -> length (results q) = S (currentIndex q)) /\
  (feedback q = idle ->
   exists a' q',
     step a Submit = Returns a' /\ quiz a' = Some q' /\
     feedback q' <> idle /\
     currentIndex q' = currentIndex q /\
     length (results q') = S (currentIndex q')).
Proof.
  intros Hr Hq. apply reachable_Inv in Hr. destruct Hr as [_ HI].
  rewrite Hq in HI. destruct HI as [Hlt HI].
  split; [|split].
  - intros Hf. rewrite Hf in HI. apply HI.
  - intros Hf. destruct (feedback q); [congruence| |]; apply HI.
  - intros Hf. rewrite Hf in HI. destruct HI as [Hlen _].
    destruct (step_Submit_idle a q Hq Hf Hlt)
      as (q' & cb & Hs & Hf' & Hi & _ & Hres).
    eexists _, q'. split; [exact Hs|]. split; [reflexivity|].
    split; [exact Hf'|]. split; [exact Hi|].
    rewrite Hres, length_app, Hi. simpl. lia.
Qed.

(** C5: while feedback is shown, any number of submissions returns the
    same state and schedules nothing, without an exception. *)
Theorem submit_ignored_during_feedback (q : QuizScreenState) (n : nat) :
  feedback q <> idle ->
  submitTimes n q = Returns (q, []) /\
  (forall a, reachable a -> quiz a = Some q ->
             run a (repeat Submit n) = Returns a).
Proof.
  intros Hf. split.
  - induction n as [|n IH]; simpl; [reflexivity|].
    rewrite handleSubmit_feedback_shown by exact Hf.
    cbn [bind fst snd]. rewrite IH. reflexivity.
  - intros a Hr Hq. apply reachable_Inv in Hr. destruct Hr as [_ HI].
    rewrite Hq in HI. destruct HI as [Hlt _].
    induction n as [|n IH]; cbn [repeat run]; [reflexivity|].
    rewrite (step_Submit_feedback_shown a q Hq Hf Hlt). exact IH.
Qed.

End Session.

Lemma afterFirstAnswer_reachable : @reachable asciiHost afterFirstAnswer.
Proof. exists firstAnswerEvents. vm_compute. reflexivity. Qed.

Lemma results_length_invariant_witness :
  @reachable asciiHost afterFirstAnswer /\
  quiz afterFirstAnswer = Some duringFirstFeedback /\
  feedback duringFirstFeedback <> idle /\
  length (results duringFirstFeedback) = S (currentIndex duringFirstFeedback).
Proof.
  assert (Hq : quiz afterFirstAnswer = Some duringFirstFeedback)
    by (vm_compute; reflexivity).
  assert (Hf : feedback duringFirstFeedback <> idle)
    by (vm_compute; discriminate).
  split; [exact afterFirstAnswer_reachable|].
  split; [exact Hq|]. split; [exact Hf|].
  destruct (@results_length_invariant asciiHost afterFirstAnswer
              duringFirstFeedback afterFirstAnswer_reachable Hq)
    as (_ & H & _).
  exact (H Hf).
Defined.

Lemma submit_ignored_during_feedback_witness :
  feedback duringFirstFeedback <> idle /\
  @submitTimes asciiHost 3 duringFirstFeedback
  = Returns (duringFirstFeedback, []) /\
  @run asciiHost afterFirstAnswer [Submit; Submit; Submit]
  = Returns afterFirstAnswer.
Proof.
  assert (Hf : feedback duringFirstFeedback <> idle)
    by (vm_compute; discriminate).
  destruct (@submit_ignored_during_feedback asciiHost duringFirstFeedback 3 Hf)
    as [H1 H2].
  split; [exact Hf|]. split; [exact H1|].
  apply (H2 afterFirstAnswer afterFirstAnswer_reachable).
  vm_compute. reflexivity.
Defined.

(** ** Leaving the quiz *)

Lemma run_snoc (host : Host) (events : list Event) (e : Event) (a : App) :
  run a (events ++ [e]) = (a' <- run a events ;; step a' e).
Proof.
  revert a. induction events as [|e' events IH]; intros a; cbn [app run bind].
  - destruct (step a e); reflexivity.
  - destruct (step a e'); cbn [bind]; [apply IH|reflexivity].
Qed.

(** The timer of a submission at the last position ends the session. *)
Lemma dwellCallback_last (cb : DwellCallback) (now : Z) :
  S (captured_currentIndex cb) = length (captured_shuffledWords cb) ->
  exists durationSeconds,
    dwellCallback cb now
    = Finish (captured_results cb ++ [captured_newResult cb]) durationSeconds.
Proof.
  intros H. unfold dwellCallback. rewrite <- H.
  destruct (Z.of_nat (captured_currentIndex cb)
            <? Z.of_nat (S (captured_currentIndex cb)) - 1) eqn:E.
  - apply Z.ltb_lt in E. lia.
  - eexists. reflexivity.
Qed.

(** C6, in a one-word session left while the feedback of its only word
    is shown: the exit puts the selection screen back and unmounts the
    quiz, but the timer of the submission is still pending; when it
    fires, [onFinish] runs with the record of the abandoned session and
    the result screen is shown. *)
Theorem exit_during_last_feedback_finishes
        (host : Host) (random : Random) (now later : Z) :
  exists left finished cb,
    run initialApp (exitDuringLastFeedback random now) = Returns left /\
    screen left = SELECTION /\
    quiz left = None /\
    timers left = [(1%nat, cb)] /\
    dwellCallback cb later
    = Finish (quizResults finished) (quizDuration finished) /\
    run initialApp (exitDuringLastFeedback random now ++ [TimerFires later])
    = Returns finished /\
    screen finished = RESULT /\
    map word (quizResults finished) = [cat] /\
    map userAnswer (quizResults finished) = [js "cat"].
Proof.
  assert (H : exists left cb,
             run initialApp (exitDuringLastFeedback random now) = Returns left /\
             screen left = SELECTION /\ quiz left = None /\
             timers left = [(1%nat, cb)] /\
             S (captured_currentIndex cb) = length (captured_shuffledWords cb) /\
             map word (captured_results cb ++ [captured_newResult cb]) = [cat] /\
             map userAnswer (captured_results cb ++ [captured_newResult cb])
             = [js "cat"]).
  { eexists _, _. split; [vm_compute; reflexivity|]. repeat split. }
  destruct H as (left & cb & Hrun & Hs & Hq & Ht & Hlast & Hw & Hu).
  destruct (dwellCallback_last cb later Hlast) as [d Hd].
  exists left, (finishQuiz (captured_results cb ++ [captured_newResult cb]) d
                           (setTimers [] left)), cb.
  split; [exact Hrun|]. split; [exact Hs|]. split; [exact Hq|].
  split; [exact Ht|]. split; [exact Hd|]. split.
  - rewrite run_snoc, Hrun. cbn [bind step]. unfold fireTimer.
    rewrite Ht, Hd. reflexivity.
  - split; [reflexivity|]. split; assumption.
Qed.

(** ** Starting with nothing selected *)

(** C9: with no word selected [handleStart] returns at once and leaves
    the application as it is, on the selection screen; a quiz screen
    given the empty list throws in its first render; and no reachable
    state has a quiz screen mounted on an empty sequence. *)
Theorem empty_selection_never_starts (host : Host) :
  (forall availableWords checkedWords gender uri random now a,
      filter (fun w => has checkedWords (id w)) availableWords = [] ->
      handleStart availableWords checkedWords gender uri random now a
      = Returns a) /\
  (forall random now, mountQuizScreen [] random now = Throws TypeError) /\
  (forall gender uri random now a,
      startQuiz [] gender uri random now a = Throws TypeError) /\
  (forall a q, reachable a -> quiz a = Some q -> shuffledWords q <> []).
Proof.
  split; [|split; [|split]].
  - intros * H. unfold handleStart. rewrite H. reflexivity.
  - reflexivity.
  - reflexivity.
  - intros a q Hr Hq. apply reachable_Inv in Hr. destruct Hr as [_ HI].
    rewrite Hq in HI. destruct HI as [Hlt _].
    intros E. rewrite E in Hlt. simpl in Hlt. lia.
Qed.

Lemma empty_selection_never_starts_witness :
  filter (fun w => has [] (id w)) [cat; dog] = [] /\
  handleStart [cat; dog] [] male (js "urn:voice:samantha") quarter 0 initialApp
  = Returns initialApp /\
  shuffledWords duringFirstFeedback <> [].
Proof.
  destruct (empty_selection_never_starts asciiHost) as (H1 & _ & _ & H4).
  assert (E : filter (fun w => has [] (id w)) [cat; dog] = []) by reflexivity.
  split; [exact E|]. split.
  - exact (H1 [cat; dog] [] male (js "urn:voice:samantha") quarter 0
              initialApp E).
  - apply (H4 afterFirstAnswer duringFirstFeedback afterFirstAnswer_reachable).
    vm_compute. reflexivity.
Defined.

(** * Further properties *)

(** ** The voice of an utterance *)

Lemma selectVoice_fst (host : Host) (voices : list SpeechSynthesisVoice)
      (gender : VoiceGender) (specificVoiceURI : option jsstring) :
  fst (selectVoice voices gender specificVoiceURI)
  = orElse (findSpecific voices specificVoiceURI)
      (orElse (find (keywordMatch
                       (match gender with
                        | male => maleKeywords
                        | female => femaleKeywords
                        end)) voices)
         (orElse (find (fun v => str_eqb (lang v) (js "en-US")) voices)
                 (find (fun v => includes (lang v) (js "en")) voices))).
Proof.
  unfold selectVoice.
  destruct (findSpecific voices specificVoiceURI) as [v|]; [reflexivity|].
  destruct gender; cbn [isSome];
    destruct (find (keywordMatch _) voices); reflexivity.
Qed.

Lemma selectVoice_found_specific (host : Host)
      (voices : list SpeechSynthesisVoice) (gender : VoiceGender)
      (specificVoiceURI : option jsstring) (v : SpeechSynthesisVoice) :
  findSpecific voices specificVoiceURI = Some v ->
  selectVoice voices gender specificVoiceURI = (Some v, true).
Proof. intros H. unfold selectVoice. rewrite H. reflexivity. Qed.

(** X1: a non-empty voice URI that the catalogue has wins over the
    gender: the utterance gets the first voice with that URI and the
    default pitch, for either gender. *)
Theorem speakWord_explicit_voice
        (host : Host) (voices : list SpeechSynthesisVoice) (text : jsstring)
        (gender : VoiceGender) (uri : jsstring) (speechRate : Number.t)
        (v : SpeechSynthesisVoice) :
  uri <> [] ->
  find (fun v => str_eqb (voiceURI v) uri) voices = Some v ->
  exists u,
    speakWord true voices text gender (Some uri) speechRate = Some u /\
    utterance_voice u = Some v /\
    utterance_pitch u = Number.ofZ 1 /\
    utterance_rate u = speechRate /\
    voiceURI v = uri /\ In v voices.
Proof.
  intros Hne Hf.
  assert (Hs : findSpecific voices (Some uri) = Some v).
  { unfold findSpecific, truthyURI. destruct uri; [congruence|exact Hf]. }
  unfold speakWord. cbn [negb].
  rewrite (selectVoice_found_specific host voices gender (Some uri) v Hs).
  eexists. split; [reflexivity|]. cbn [utterance_voice utterance_pitch utterance_rate negb].
  apply find_some in Hf. destruct Hf as [Hin He]. apply str_eqb_eq in He.
  destruct gender; repeat split; assumption.
Qed.

Lemma speakWord_explicit_voice_witness :
  exists u,
    @speakWord asciiHost true [samantha] (js "cat") male
               (Some (js "urn:voice:samantha")) (Number.lit 8 10) = Some u /\
    utterance_voice u = Some samantha /\
    utterance_pitch u = Number.ofZ 1.
Proof.
  destruct (speakWord_explicit_voice asciiHost [samantha] (js "cat") male
              (js "urn:voice:samantha") (Number.lit 8 10) samantha
              ltac:(discriminate) eq_refl) as (u & H1 & H2 & H3 & _).
  exists u. auto.
Defined.

Lemma enUS_includes_en (l : jsstring) :
  str_eqb l (js "en-US") = true -> includes l (js "en") = true.
Proof. intros H. apply str_eqb_eq in H. subst l. reflexivity. Qed.

(** X2: the voice of an utterance is always one of the catalogue; when it
    was not found through the URI passed, its language tag contains
    "en"; and the utterance is left without a voice exactly when the URI
    look-up finds nothing and no voice of the catalogue has "en" in its
    language tag. *)
Theorem speakWord_voice_from_catalogue
        (host : Host) (voices : list SpeechSynthesisVoice) (text : jsstring)
        (gender : VoiceGender) (specificVoiceURI : option jsstring)
        (speechRate : Number.t) :
  exists u,
    speakWord true voices text gender specificVoiceURI speechRate = Some u /\
    (forall v, utterance_voice u = Some v ->
               In v voices /\
               (findSpecific voices specificVoiceURI = None ->
                includes (lang v) (js "en") = true)) /\
    (utterance_voice u = None <->
     findSpecific voices specificVoiceURI = None /\
     forall v, In v voices -> includes (lang v) (js "en") = false).
Proof.
  pose proof (selectVoice_fst host voices gender specificVoiceURI) as Hs.
  unfold speakWord. cbn [negb].
  destruct (selectVoice voices gender specificVoiceURI) as [sel found].
  cbn [fst] in Hs. eexists. split; [reflexivity|]. cbn [utterance_voice].
  subst sel.
  set (K := match gender with male => maleKeywords | female => femaleKeywords end).
  assert (Hspec : forall v, findSpecific voices specificVoiceURI = Some v ->
                            In v voices).
  { unfold findSpecific. destruct (truthyURI specificVoiceURI); [|discriminate].
    intros v Hv. apply find_some in Hv. apply Hv. }
  destruct (findSpecific voices specificVoiceURI) as [v0|] eqn:E0; cbn [orElse].
  { split.
    - intros v Hv. injection Hv as <-. split; [auto|discriminate].
    - split; [discriminate|intros [H _]; discriminate]. }
  destruct (find (keywordMatch K) voices) as [v1|] eqn:E1; cbn [orElse].
  { apply find_some in E1. destruct E1 as [Hin Hk].
    unfold keywordMatch in Hk. apply andb_prop in Hk. destruct Hk as [Hen _].
    split.
    - intros v Hv. injection Hv as <-. auto.
    - split; [discriminate|]. intros [_ H]. rewrite (H v1 Hin) in Hen.
      discriminate. }
  destruct (find (fun v => str_eqb (lang v) (js "en-US")) voices)
    as [v2|] eqn:E2; cbn [orElse].
  { apply find_some in E2. destruct E2 as [Hin He].
    apply enUS_includes_en in He. split.
    - intros v Hv. injection Hv as <-. auto.
    - split; [discriminate|]. intros [_ H]. rewrite (H v2 Hin) in He.
      discriminate. }
  destruct (find (fun v => includes (lang v) (js "en")) voices)
    as [v3|] eqn:E3.
  { apply find_some in E3. destruct E3 as [Hin He]. split.
    - intros v Hv. injection Hv as <-. auto.
    - split; [discriminate|]. intros [_ H]. rewrite (H v3 Hin) in He.
      discriminate. }
  split; [discriminate|]. split; [|reflexivity].
  intros _. split; [reflexivity|]. intros v Hin.
  apply (find_none _ _ E3 v Hin).
Qed.

(** ** The verdict of a submission *)

Lemma trimStart_whitespace_app (pre s : jsstring) :
  forallb isWhiteSpace pre = true -> trimStart (pre ++ s) = trimStart s.
Proof.
  induction pre as [|c pre IH]; cbn [app forallb trimStart]; intros H;
    [reflexivity|].
  apply andb_prop in H. destruct H as [Hc Hp]. rewrite Hc. apply IH, Hp.
Qed.

Lemma trimStart_whitespace (s : jsstring) :
  forallb isWhiteSpace s = true -> trimStart s = [].
Proof.
  intros H. rewrite <- (app_nil_r s).
  rewrite trimStart_whitespace_app by exact H. reflexivity.
Qed.

Lemma forallb_rev {A} (P : A -> bool) (l : list A) :
  forallb P (rev l) = forallb P l.
Proof.
  induction l as [|x l IH]; [reflexivity|].
  cbn [rev forallb]. rewrite forallb_app, IH. cbn [forallb].
  rewrite andb_true_r. apply andb_comm.
Qed.

Lemma trimEnd_whitespace_app (s post : jsstring) :
  forallb isWhiteSpace post = true -> trimEnd (s ++ post) = trimEnd s.
Proof.
  intros H. unfold trimEnd. rewrite rev_app_distr.
  rewrite trimStart_whitespace_app by (rewrite forallb_rev; exact H).
  reflexivity.
Qed.

(** Either nothing is left of [s], or what is left starts at a character
    that is not white space. *)
Lemma trimStart_cases (s : jsstring) :
  (forallb isWhiteSpace s = true /\ trimStart s = []) \/
  (exists pre c t, s = pre ++ c :: t /\ forallb isWhiteSpace pre = true /\
                   isWhiteSpace c = false /\ trimStart s = c :: t).
Proof.
  induction s as [|c s IH]; [left; split; reflexivity|].
  cbn [trimStart forallb]. destruct (isWhiteSpace c) eqn:Ec.
  - destruct IH as [[Hw Ht]|(pre & d & t & Hs & Hp & Hd & Ht)].
    + left. split; assumption.
    + right. exists (c :: pre), d, t. subst s. cbn [forallb app].
      rewrite Ec, Hp. repeat split; assumption.
  - right. exists [], c, s. repeat split. exact Ec.
Qed.

Lemma trim_outer_whitespace (pre s post : jsstring) :
  forallb isWhiteSpace pre = true -> forallb isWhiteSpace post = true ->
  trim (pre ++ s ++ post) = trim s.
Proof.
  intros Hpre Hpost. unfold trim.
  rewrite trimStart_whitespace_app by exact Hpre.
  destruct (trimStart_cases s) as [[Hw Ht]|(p & c & t & Hs & Hp & Hc & Ht)].
  - rewrite Ht. rewrite trimStart_whitespace; [reflexivity|].
    rewrite forallb_app, Hw, Hpost. reflexivity.
  - rewrite Ht. subst s. rewrite <- app_assoc.
    rewrite trimStart_whitespace_app by exact Hp.
    cbn [app trimStart]. rewrite Hc.
    change (c :: t ++ post) with ((c :: t) ++ post).
    apply trimEnd_whitespace_app, Hpost.
Qed.

Lemma trim_whitespace (s : jsstring) :
  forallb isWhiteSpace s = true -> trim s = [].
Proof. intros H. unfold trim. rewrite trimStart_whitespace by exact H. reflexivity. Qed.

Lemma handleSubmit_idle (host : Host) (q : QuizScreenState) (w : VocabWord) :
  feedback q = idle -> currentWord q = Some w ->
  exists q' cb,
    handleSubmit q = Returns (q', Some cb) /\
    captured_newResult cb
    = {| word := w; userAnswer := userInput q;
         isCorrect := str_eqb (toLowerCase (trim (userInput q)))
                              (toLowerCase (trim (english w))) |} /\
    feedback q' = (if isCorrect (captured_newResult cb) then correct else wrong) /\
    results q' = results q ++ [captured_newResult cb].
Proof.
  intros Hf Hw. unfold handleSubmit. rewrite Hf, Hw. cbn [isIdle negb].
  eexists _, _. split; [reflexivity|]. cbn [captured_newResult isCorrect].
  repeat split.
Qed.

(** X3: white space around the typed answer does not change the verdict:
    the same word is judged the same with the input padded on both
    sides; the record keeps the padded text as typed. *)
Theorem handleSubmit_ignores_outer_whitespace
        (host : Host) (q : QuizScreenState) (w : VocabWord)
        (pre post : jsstring) :
  feedback q = idle ->
  currentWord q = Some w ->
  forallb isWhiteSpace pre = true ->
  forallb isWhiteSpace post = true ->
  exists q1 cb1 q2 cb2,
    handleSubmit q = Returns (q1, Some cb1) /\
    handleSubmit (setUserInput (pre ++ userInput q ++ post) q)
    = Returns (q2, Some cb2) /\
    isCorrect (captured_newResult cb2) = isCorrect (captured_newResult cb1) /\
    feedback q2 = feedback q1 /\
    userAnswer (captured_newResult cb2) = pre ++ userInput q ++ post.
Proof.
  intros Hf Hw Hpre Hpost.
  destruct (handleSubmit_idle host q w Hf Hw) as (q1 & cb1 & H1 & R1 & F1 & _).
  destruct (handleSubmit_idle host
              (setUserInput (pre ++ userInput q ++ post) q) w Hf Hw)
    as (q2 & cb2 & H2 & R2 & F2 & _).
  exists q1, cb1, q2, cb2. split; [exact H1|]. split; [exact H2|].
  assert (E : isCorrect (captured_newResult cb2)
              = isCorrect (captured_newResult cb1)).
  { rewrite R1, R2. cbn [isCorrect userInput setUserInput].
    rewrite trim_outer_whitespace by assumption. reflexivity. }
  split; [exact E|]. split; [rewrite F1, F2, E; reflexivity|].
  rewrite R2. reflexivity.
Qed.

Lemma handleSubmit_ignores_outer_whitespace_witness :
  exists q1 cb1 q2 cb2,
    @handleSubmit asciiHost (awaiting apple "apple") = Returns (q1, Some cb1) /\
    @handleSubmit asciiHost
       (setUserInput (js "  " ++ userInput (awaiting apple "apple") ++ js " ")
                     (awaiting apple "apple"))
    = Returns (q2, Some cb2) /\
    isCorrect (captured_newResult cb2) = isCorrect (captured_newResult cb1).
Proof.
  destruct (handleSubmit_ignores_outer_whitespace asciiHost
              (awaiting apple "apple") apple (js "  ") (js " ")
              eq_refl eq_refl eq_refl eq_refl)
    as (q1 & cb1 & q2 & cb2 & H1 & H2 & H3 & _).
  exists q1, cb1, q2, cb2. auto.
Defined.

Lemma forallb_trimStart (P : codeunit -> bool) (s : jsstring) :
  forallb P s = true -> forallb P (trimStart s) = true.
Proof.
  induction s as [|c s IH]; [reflexivity|]. cbn [trimStart].
  destruct (isWhiteSpace c); [|auto].
  cbn [forallb]. intros H. apply andb_prop in H. apply IH, H.
Qed.

Lemma forallb_trim (P : codeunit -> bool) (s : jsstring) :
  forallb P s = true -> forallb P (trim s) = true.
Proof.
  intros H. unfold trim, trimEnd. rewrite forallb_rev.
  apply forallb_trimStart. rewrite forallb_rev.
  apply forallb_trimStart, H.
Qed.

(** X4: for an answer and a word written in ASCII the verdict is the
    comparison of the two trimmed strings with the letters A-Z taken as
    a-z, whatever else the host's case mapping does; an answer of white
    space only (or empty, as when submitting while listening) is wrong
    for every word that is more than white space. *)
Theorem handleSubmit_ascii_verdict
        (host : Host) (q : QuizScreenState) (w : VocabWord) :
  ascii_faithful host ->
  feedback q = idle ->
  currentWord q = Some w ->
  forallb isAscii (userInput q) = true ->
  forallb isAscii (english w) = true ->
  exists q' cb,
    handleSubmit q = Returns (q', Some cb) /\
    (isCorrect (captured_newResult cb) = true <->
     map asciiLower (trim (userInput q)) = map asciiLower (trim (english w))) /\
    (forallb isWhiteSpace (userInput q) = true -> trim (english w) <> [] ->
     isCorrect (captured_newResult cb) = false /\ feedback q' = wrong).
Proof.
  intros Hh Hf Hw Hi He.
  destruct (handleSubmit_idle host q w Hf Hw) as (q' & cb & H & R & F & _).
  exists q', cb. split; [exact H|].
  assert (V : isCorrect (captured_newResult cb) = true <->
              map asciiLower (trim (userInput q))
              = map asciiLower (trim (english w))).
  { rewrite R. cbn [isCorrect].
    rewrite (Hh (trim (userInput q))) by (apply forallb_trim, Hi).
    rewrite (Hh (trim (english w))) by (apply forallb_trim, He).
    apply str_eqb_eq. }
  split; [exact V|].
  intros Hws Hne.
  assert (N : isCorrect (captured_newResult cb) = false).
  { destruct (isCorrect (captured_newResult cb)); [|reflexivity].
    exfalso. destruct V as [V _]. specialize (V eq_refl).
    rewrite (trim_whitespace _ Hws) in V.
    destruct (trim (english w)); [congruence|discriminate]. }
  split; [exact N|]. rewrite F, N. reflexivity.
Qed.

Lemma handleSubmit_ascii_verdict_witness :
  exists q' cb,
    @handleSubmit asciiHost (awaiting apple "APPLE") = Returns (q', Some cb) /\
    isCorrect (captured_newResult cb) = true.
Proof.
  destruct (handleSubmit_ascii_verdict asciiHost (awaiting apple "APPLE") apple
              asciiHost_faithful eq_refl eq_refl eq_refl eq_refl)
    as (q' & cb & H & V & _).
  exists q', cb. split; [exact H|]. apply V. reflexivity.
Defined.

(** ** The dictated answer *)

Lemma asciiLower_letter (c : codeunit) :
  isLetter c = true -> 97 <= asciiLower c <= 122.
Proof.
  unfold isLetter, asciiLower. intros H.
  destruct ((65 <=? c) && (c <=? 90)) eqn:E; lia.
Qed.

Lemma lowercase_not_whitespace (c : codeunit) :
  97 <= c <= 122 -> isWhiteSpace c = false.
Proof. unfold isWhiteSpace. lia. Qed.

Lemma trimStart_no_whitespace (s : jsstring) :
  Forall (fun c => isWhiteSpace c = false) s -> trimStart s = s.
Proof.
  intros H. destruct H as [|c s Hc _]; [reflexivity|].
  cbn [trimStart]. rewrite Hc. reflexivity.
Qed.

Lemma trim_no_whitespace (s : jsstring) :
  Forall (fun c => isWhiteSpace c = false) s -> trim s = s.
Proof.
  intros H. unfold trim, trimEnd.
  rewrite (trimStart_no_whitespace s H).
  rewrite trimStart_no_whitespace by (apply Forall_rev, H).
  apply rev_involutive.
Qed.

(** X5: whatever the recogniser returns, the buffer a dictation leaves
    holds lower-case letters a-z only, so trimming leaves it as it is. *)
Theorem onresult_lowercase_letters
        (host : Host) (event_results : list SpeechRecognitionResult)
        (q : QuizScreenState) :
  ascii_faithful host ->
  Forall (fun c => 97 <= c <= 122) (userInput (onresult event_results q)) /\
  trim (userInput (onresult event_results q))
  = userInput (onresult event_results q) /\
  (length (userInput (onresult event_results q))
   <= length (concat (map transcript event_results)))%nat.
Proof.
  intros Hh. rewrite onresult_userInput.
  rewrite (toLowerCase_letters host _ Hh).
  assert (L : Forall (fun c => 97 <= c <= 122)
                (map asciiLower
                   (stripNonLetters (concat (map transcript event_results))))).
  { apply Forall_map, Forall_forall. intros c Hc.
    apply filter_In in Hc. apply asciiLower_letter, Hc. }
  split; [exact L|]. split.
  - apply trim_no_whitespace. eapply Forall_impl; [|exact L].
    intros c Hc. apply lowercase_not_whitespace, Hc.
  - rewrite length_map. apply filter_length_le.
Qed.

Lemma onresult_lowercase_letters_witness :
  userInput (@onresult asciiHost [fragment "C 4 T!"] (awaiting cat "x"))
  = js "ct" /\
  Forall (fun c => 97 <= c <= 122)
         (userInput (@onresult asciiHost [fragment "C 4 T!"] (awaiting cat "x"))).
Proof.
  split; [reflexivity|].
  apply (onresult_lowercase_letters asciiHost [fragment "C 4 T!"]
           (awaiting cat "x") asciiHost_faithful).
Defined.

(** ** How a mounted quiz screen moves *)

Lemma firstn_succ_nth_error {A} (l : list A) (n : nat) (x : A) :
  nth_error l n = Some x -> firstn (S n) l = firstn n l ++ [x].
Proof.
  revert n. induction l as [|y l IH]; intros [|n] H; try discriminate.
  - injection H as ->. reflexivity.
  - cbn [nth_error] in H. change (firstn (S (S n)) (y :: l))
      with (y :: firstn (S n) l). rewrite (IH n H). reflexivity.
Qed.

Lemma In_timersOf (inst : nat) (cb : DwellCallback)
      (pending : list (nat * DwellCallback)) :
  In (inst, cb) pending -> In (inst, cb) (timersOf inst pending).
Proof.
  intros H. apply filter_In. split; [exact H|]. apply Nat.eqb_refl.
Qed.

Section Moves.
Context {host : Host}.

Lemma handleSubmit_idle_timer (q : QuizScreenState) (w : VocabWord) :
  feedback q = idle -> currentWord q = Some w ->
  exists q' cb,
    handleSubmit q = Returns (q', Some cb) /\
    shuffledWords q' = shuffledWords q /\
    currentIndex q' = currentIndex q /\
    results q' = results q ++ [captured_newResult cb] /\
    feedback q' <> idle /\
    word (captured_newResult cb) = w /\
    captured_results cb = results q.
Proof.
  intros Hf Hw. unfold handleSubmit. rewrite Hf, Hw. cbn [isIdle negb].
  eexists _, _. split; [reflexivity|].
  cbn [captured_newResult captured_results word].
  destruct (str_eqb (toLowerCase (trim (userInput q)))
                    (toLowerCase (trim (english w))));
    repeat split; discriminate.
Qed.

Lemma quizEvent_mounted (f : QuizScreenState -> QuizScreenState)
      (a : App) (q : QuizScreenState) :
  (forall q, sameProgress q (f q)) ->
  Inv a -> quiz a = Some q ->
  quizEvent f a = Returns (setQuiz (Some (f q)) a).
Proof.
  intros Hf [_ HI] Hq. unfold quizEvent. rewrite Hq in *.
  pose proof (quizInv_sameProgress _ _ _ _ (Hf q) HI) as [Hlt _].
  rewrite (render_defined (f q) Hlt). reflexivity.
Qed.

(** When the oldest pending timer is one of the mounted screen, the
    screen shows feedback and the timer was made at its position. *)
Lemma own_timer_head (inst : nat) (cb : DwellCallback)
      (rest : list (nat * DwellCallback)) (q : QuizScreenState) :
  quizInv inst ((inst, cb) :: rest) q ->
  feedback q <> idle /\
  length (results q) = S (currentIndex q) /\
  timersOf inst rest = [] /\
  captured_currentIndex cb = currentIndex q /\
  captured_shuffledWords cb = shuffledWords q.
Proof.
  intros [_ H]. unfold timersOf in *. cbn [filter fst] in H.
  rewrite Nat.eqb_refl in H.
  destruct (feedback q).
  - destruct H as [_ H]. discriminate.
  - destruct H as [Hl (cb' & Hm & Hi & Hw)]. injection Hm as <- Hm.
    repeat split; try assumption; discriminate.
  - destruct H as [Hl (cb' & Hm & Hi & Hw)]. injection Hm as <- Hm.
    repeat split; try assumption; discriminate.
Qed.

(** The moves of the application while a quiz screen is mounted: the
    progress is kept; or a submission in the idle state appends a record
    and schedules a timer; or the timer of this screen moves it to the
    next position; or the screen is unmounted. *)
Lemma step_mounted (a a' : App) (e : Event) (q : QuizScreenState) :
  Inv a -> screen a = QUIZ -> quiz a = Some q ->
  step a e = Returns a' ->
  (exists q', quiz a' = Some q' /\ sameProgress q q' /\ sameRouter a a' /\
              (timers a' = timers a \/
               exists i cb, i <> instance a /\ timers a = (i, cb) :: timers a'))
  \/
  (feedback q = idle /\
   exists q' cb w,
     currentWord q = Some w /\ quiz a' = Some q' /\ sameRouter a a' /\
     timers a' = timers a ++ [(instance a, cb)] /\
     shuffledWords q' = shuffledWords q /\
     currentIndex q' = currentIndex q /\
     results q' = results q ++ [captured_newResult cb] /\
     feedback q' <> idle /\
     word (captured_newResult cb) = w /\
     captured_results cb = results q)
  \/
  (feedback q <> idle /\
   exists cb q',
     timers a = (instance a, cb) :: timers a' /\
     quiz a' = Some q' /\ sameRouter a a' /\
     shuffledWords q' = shuffledWords q /\
     results q' = results q /\
     currentIndex q' = S (currentIndex q) /\
     feedback q' = idle /\ userInput q' = [])
  \/
  (quiz a' = None /\ screen a' <> QUIZ).
Proof.
  intros HI Hscreen Hq Hstep.
  assert (Kept : forall f, (forall q, sameProgress q (f q)) ->
                           quizEvent f a = Returns a' ->
                           exists q', quiz a' = Some q' /\ sameProgress q q' /\
                                      sameRouter a a' /\
                                      (timers a' = timers a \/
                                       exists i cb, i <> instance a /\
                                                    timers a = (i, cb) :: timers a')).
  { intros f Hf H. rewrite (quizEvent_mounted f a q Hf HI Hq) in H.
    injection H as <-. exists (f q). split; [reflexivity|].
    split; [apply Hf|]. split; [repeat split|left; reflexivity]. }
  assert (Same : Returns a = Returns a' ->
                 exists q', quiz a' = Some q' /\ sameProgress q q' /\
                            sameRouter a a' /\
                            (timers a' = timers a \/
                             exists i cb, i <> instance a /\
                                          timers a = (i, cb) :: timers a')).
  { intros H. injection H as <-. exists q. split; [exact Hq|].
    split; [repeat split|]. split; [repeat split|left; reflexivity]. }
  pose proof HI as [Ht HQ]. rewrite Hq in HQ. pose proof HQ as [Hlt _].
  destruct e; cbn [step] in Hstep.
  - rewrite Hscreen in Hstep. left. apply Same, Hstep.
  - left. apply (Kept (setUserInput value)); [|exact Hstep]. repeat split.
  - rewrite Hq in Hstep. destruct (feedback q) eqn:Ef.
    + right. left. split; [reflexivity|].
      destruct (currentWord_defined q Hlt) as [w Hw].
      destruct (handleSubmit_idle_timer q w Ef Hw)
        as (q' & cb & Hs & H1 & H2 & H3 & H4 & H5 & H6).
      rewrite Hs in Hstep. cbn [bind fst snd] in Hstep.
      rewrite render_defined in Hstep by (rewrite H1, H2; exact Hlt).
      cbn [bind] in Hstep. injection Hstep as <-.
      exists q', cb, w. repeat split; assumption.
    + left. rewrite handleSubmit_feedback_shown in Hstep by congruence.
      cbn [bind fst snd] in Hstep.
      rewrite render_defined in Hstep by exact Hlt. cbn [bind] in Hstep.
      rewrite setQuiz_same in Hstep by exact Hq.
      rewrite setTimers_same in Hstep. apply Same, Hstep.
    + left. rewrite handleSubmit_feedback_shown in Hstep by congruence.
      cbn [bind fst snd] in Hstep.
      rewrite render_defined in Hstep by exact Hlt. cbn [bind] in Hstep.
      rewrite setQuiz_same in Hstep by exact Hq.
      rewrite setTimers_same in Hstep. apply Same, Hstep.
  - left. apply (Kept (toggleListening hasSpeechRecognition));
      [|exact Hstep].
    intros q0. unfold toggleListening, stopListening, startListening.
    destruct (isListening q0); [repeat split|].
    destruct hasSpeechRecognition; repeat split.
  - left. apply (Kept (setIsListening true)); [|exact Hstep]. repeat split.
  - left. apply (Kept (setIsListening false)); [|exact Hstep]. repeat split.
  - left. apply (Kept (setIsListening false)); [|exact Hstep]. repeat split.
  - left. apply (Kept (onresult event_results)); [|exact Hstep]. repeat split.
  - left. apply (Kept (setSpeechRate rate)); [|exact Hstep]. repeat split.
  - rewrite Hq in Hstep. cbv beta iota in Hstep. injection Hstep as <-.
    right. right. right. split; [reflexivity|discriminate].
  - clear Kept. unfold fireTimer in Hstep.
    destruct (timers a) as [|[i cb] rest] eqn:Et.
    { left. apply Same, Hstep. }
    clear Same. cbv zeta in Hstep. cbn [quiz setTimers instance] in Hstep.
    rewrite Hq in Hstep.
    destruct (dwellCallback cb now) as [|finalResults d] eqn:Ed.
    2:{ injection Hstep as <-. right. right. right.
        split; [reflexivity|discriminate]. }
    destruct (Nat.eqb_spec i (instance a)) as [->|Hother].
    + destruct (own_timer_head _ _ _ _ HQ) as (Hf & Hl & Hm & Hi & Hw).
      unfold dwellCallback in Ed. rewrite Hi, Hw in Ed.
      destruct (Z.of_nat (currentIndex q)
                <? Z.of_nat (length (shuffledWords q)) - 1) eqn:Elt;
        [|discriminate].
      apply Z.ltb_lt in Elt.
      rewrite render_defined in Hstep
        by (cbn [currentIndex shuffledWords stopListening setIsListening
                 setRecognitionRef setCurrentIndex setUserInput setFeedback];
            lia).
      cbn [bind] in Hstep. injection Hstep as <-.
      right. right. left. split; [exact Hf|].
      eexists cb, _. split; [reflexivity|]. split; [reflexivity|].
      repeat split.
    + injection Hstep as <-. left. exists q. split; [exact Hq|].
      split; [repeat split|]. split; [repeat split|].
      right. exists i, cb. split; [exact Hother|reflexivity].
  - rewrite Hscreen in Hstep. left. apply Same, Hstep.
Qed.

End Moves.

Section SessionInvariant.
Context {host : Host}.

Lemma step_unmounted (a a' : App) (e : Event) :
  Inv a -> quiz a = None -> screen a <> QUIZ ->
  step a e = Returns a' ->
  (quiz a' = None /\ screen a' <> QUIZ) \/
  (exists q, quiz a' = Some q /\ screen a' = QUIZ /\
             instance a' = S (instance a) /\ timers a' = timers a /\
             results q = [] /\ currentIndex q = 0%nat /\ feedback q = idle /\
             Permutation (shuffledWords q) (selectedWords a') /\
             selectedWords a' <> []).
Proof.
  intros HI Hq Hscreen Hstep.
  assert (Same : Returns a = Returns a' ->
                 (quiz a' = None /\ screen a' <> QUIZ)).
  { intros H. injection H as <-. split; assumption. }
  destruct e; cbn [step] in Hstep; unfold quizEvent in Hstep;
    try (rewrite Hq in Hstep; left; apply Same, Hstep).
  - destruct (screen a); try (left; apply Same, Hstep).
    unfold handleStart in Hstep.
    set (wordsToQuiz := filter (fun w => has checkedWords (id w)) availableWords)
      in Hstep.
    destruct (0 <? Z.of_nat (length wordsToQuiz)) eqn:E;
      [|left; apply Same, Hstep].
    assert (Hne : wordsToQuiz <> []).
    { intros H0. rewrite H0 in E. discriminate. }
    unfold startQuiz in Hstep.
    destruct (mountQuizScreen_returns wordsToQuiz random now Hne)
      as (q & Hm & Hs).
    rewrite Hm in Hstep. cbn [bind] in Hstep. injection Hstep as <-.
    destruct (mountQuizScreen_initial _ _ _ _ Hm) as (Hi & Hr & Hf & _ & _).
    right. exists q. cbn [quiz screen instance timers selectedWords].
    repeat split; try assumption.
    rewrite Hs. apply shuffle_Permutation.
  - unfold fireTimer in Hstep.
    destruct (timers a) as [|[i cb] rest]; [left; apply Same, Hstep|].
    cbv zeta in Hstep. cbn [quiz setTimers] in Hstep. rewrite Hq in Hstep.
    destruct (dwellCallback cb now); injection Hstep as <-; left;
      cbn [quiz screen finishQuiz setTimers]; split;
      try assumption; try reflexivity; discriminate.
  - destruct (screen a); try (left; apply Same, Hstep).
    injection Hstep as <-. left. split; [reflexivity|discriminate].
Qed.

Lemma step_sessionInv (a a' : App) (e : Event) :
  Inv a -> sessionInv a -> step a e = Returns a' -> sessionInv a'.
Proof.
  intros HI HS Hstep. unfold sessionInv in HS.
  destruct (quiz a) as [q|] eqn:Hq.
  - destruct HS as (Hscreen & Hperm & Hwords & Hcb).
    pose proof HI as [_ HQ]. rewrite Hq in HQ.
    destruct (step_mounted a a' e q HI Hscreen Hq Hstep)
      as [(q' & Hq' & (Pw & Pi & Pr & Pf) & (Rs & Rw & Ri) & Htm)
         |[(Hf & q' & cb & w & Hw & Hq' & (Rs & Rw & Ri) & Htm & Sw & Si
            & Sr & Sf & Sword & Scap)
          |[(Hf & cb & q' & Htm & Hq' & (Rs & Rw & Ri) & Sw & Sr & Si & _)
           |[Hq' Hs']]]];
      unfold sessionInv; rewrite Hq'.
    + rewrite Rs, Rw, Ri, Pw, Pr. repeat split; try assumption.
      intros cb Hin. apply Hcb.
      destruct Htm as [E|(i & cb0 & _ & E)];
        [rewrite E in Hin; exact Hin|rewrite E; right; exact Hin].
    + rewrite Rs, Rw, Ri, Sw, Sr. split; [assumption|]. split; [assumption|].
      destruct HQ as [Hlt HQ]. rewrite Hf in HQ. destruct HQ as [Hlen Hmine].
      split.
      * rewrite map_app, length_app, Hwords. cbn [map length].
        rewrite Hlen, Nat.add_1_r, Sword.
        symmetry. apply firstn_succ_nth_error. exact Hw.
      * intros cb' Hin. rewrite Htm in Hin. apply in_app_or in Hin.
        destruct Hin as [Hin|[Hin|[]]].
        -- apply In_timersOf in Hin. rewrite Hmine in Hin. destruct Hin.
        -- injection Hin as <-. rewrite Scap. reflexivity.
    + rewrite Rs, Rw, Ri, Sw, Sr. repeat split; try assumption.
      intros cb' Hin. apply Hcb. rewrite Htm. right. exact Hin.
    + exact Hs'.
  - pose proof HI as [Ht _].
    destruct (step_unmounted a a' e HI Hq HS Hstep)
      as [[Hq' Hs']|(q & Hq' & Hs' & Hi & Htm & Hr & _ & _ & Hp & _)];
      unfold sessionInv; rewrite Hq'; [exact Hs'|].
    rewrite Hr. repeat split; try assumption.
    intros cb Hin. exfalso. rewrite Htm, Hi in Hin.
    rewrite Forall_forall in Ht. specialize (Ht _ Hin). cbn [fst] in Ht. lia.
Qed.

Lemma run_sessionInv (events : list Event) (a a' : App) :
  Inv a -> sessionInv a -> run a events = Returns a' ->
  Inv a' /\ sessionInv a'.
Proof.
  revert a. induction events as [|e events IH]; intros a HI HS H;
    cbn [run] in H.
  - injection H as <-. split; assumption.
  - destruct (step_Inv a e HI) as (a1 & H1 & HI1).
    rewrite H1 in H. cbn [bind] in H.
    apply (IH a1 HI1 (step_sessionInv a a1 e HI HS H1) H).
Qed.

Lemma reachable_sessionInv (a : App) : reachable a -> sessionInv a.
Proof.
  intros [events H].
  apply (run_sessionInv events initialApp a Inv_initial); [|exact H].
  cbn. discriminate.
Qed.

End SessionInvariant.

Section SessionProperties.
Context {host : Host}.

(** X6: in every reachable state the records of the mounted quiz are
    about the words of its sequence, position by position: the k-th
    record is the attempt at the k-th word. *)
Theorem results_follow_sequence (a : App) (q : QuizScreenState) :
  reachable a ->
  quiz a = Some q ->
  map word (results q) = firstn (length (results q)) (shuffledWords q) /\
  (forall k r, nth_error (results q) k = Some r ->
               nth_error (shuffledWords q) k = Some (word r)).
Proof.
  intros Hr Hq. apply reachable_sessionInv in Hr. unfold sessionInv in Hr.
  rewrite Hq in Hr. destruct Hr as (_ & _ & Hw & _).
  split; [exact Hw|]. intros k r Hk.
  assert (Hlt : (k < length (results q))%nat)
    by (apply nth_error_Some; congruence).
  pose proof (nth_error_map word k (results q)) as Hm.
  rewrite Hk, Hw, nth_error_firstn in Hm. cbn [option_map] in Hm.
  apply Nat.ltb_lt in Hlt. rewrite Hlt in Hm. exact Hm.
Qed.

(** X7: the quiz screen is mounted exactly when the router shows the
    quiz, and then its sequence is a rearrangement of the non-empty list
    of words the router was started with. *)
Theorem sequence_of_selected_words (a : App) :
  reachable a ->
  (screen a = QUIZ <-> quiz a <> None) /\
  (forall q, quiz a = Some q ->
             Permutation (shuffledWords q) (selectedWords a) /\
             selectedWords a <> [] /\
             (currentIndex q < length (selectedWords a))%nat).
Proof.
  intros Hr. pose proof (reachable_Inv a Hr) as [_ HI].
  apply reachable_sessionInv in Hr. unfold sessionInv in Hr.
  destruct (quiz a) as [q|].
  - destruct Hr as (Hs & Hp & _). destruct HI as [Hlt _]. split.
    + split; [discriminate|intros _; exact Hs].
    + intros q0 E. injection E as <-.
      pose proof (Permutation_length Hp) as Hl.
      split; [exact Hp|]. split; [|lia].
      intros E. rewrite E in Hl. cbn [length] in Hl. lia.
  - split; [|discriminate].
    split; [intros E; contradiction|intros E; congruence].
Qed.

(** X8: no event throws, and while the same quiz screen stays mounted an
    event keeps its sequence, appends at most one record to the records
    it has, and leaves the position or moves it on by one. *)
Theorem step_monotone (a : App) (e : Event) :
  reachable a ->
  exists a',
    step a e = Returns a' /\
    forall q q',
      quiz a = Some q -> quiz a' = Some q' ->
      instance a' = instance a /\
      selectedWords a' = selectedWords a /\
      shuffledWords q' = shuffledWords q /\
      (exists added, results q' = results q ++ added /\
                     (length added <= 1)%nat) /\
      (currentIndex q <= currentIndex q' <= S (currentIndex q))%nat.
Proof.
  intros Hr. pose proof (reachable_Inv a Hr) as HI.
  apply reachable_sessionInv in Hr.
  destruct (step_Inv a e HI) as (a' & Hstep & _).
  exists a'. split; [exact Hstep|]. intros q q' Hq Hq'.
  unfold sessionInv in Hr. rewrite Hq in Hr. destruct Hr as (Hs & _).
  destruct (step_mounted a a' e q HI Hs Hq Hstep)
    as [(q1 & Hq1 & (Pw & Pi & Pr & Pf) & (Rs & Rw & Ri) & _)
       |[(Hf & q1 & cb & w & Hw & Hq1 & (Rs & Rw & Ri) & Htm & Sw & Si
          & Sr & _)
        |[(Hf & cb & q1 & Htm & Hq1 & (Rs & Rw & Ri) & Sw & Sr & Si & _)
         |[Hn _]]]];
    try (rewrite Hq1 in Hq'; injection Hq' as <-).
  - repeat split; try assumption; try lia.
    exists []. rewrite app_nil_r. split; [exact Pr|cbn; lia].
  - repeat split; try assumption; try lia.
    exists [captured_newResult cb]. split; [exact Sr|cbn; lia].
  - repeat split; try assumption; try lia.
    exists []. rewrite app_nil_r. split; [exact Sr|cbn; lia].
  - congruence.
Qed.

(** X9: when the timer of the mounted quiz fires: before the last word
    the screen goes back to idle at the next position with an empty
    buffer and the same records; at the last word the result screen is
    shown with exactly the records of the quiz, one per word of the
    sequence and in its order. *)
Theorem dwell_timer_fires
        (a : App) (q : QuizScreenState) (cb : DwellCallback)
        (rest : list (nat * DwellCallback)) (now : Z) :
  reachable a ->
  quiz a = Some q ->
  timers a = (instance a, cb) :: rest ->
  exists a',
    step a (TimerFires now) = Returns a' /\
    timers a' = rest /\
    ((S (currentIndex q) < length (shuffledWords q))%nat ->
     exists q',
       quiz a' = Some q' /\ screen a' = QUIZ /\
       feedback q' = idle /\ userInput q' = [] /\
       currentIndex q' = S (currentIndex q) /\
       results q' = results q /\
       isListening q' = false) /\
    (S (currentIndex q) = length (shuffledWords q) ->
     quiz a' = None /\ screen a' = RESULT /\
     quizResults a' = results q /\
     map word (quizResults a') = shuffledWords q /\
     length (quizResults a') = length (selectedWords a)).
Proof.
  intros Hr Hq Ht. pose proof (reachable_Inv a Hr) as [_ HI].
  apply reachable_sessionInv in Hr. unfold sessionInv in Hr.
  rewrite Hq in *. destruct Hr as (Hs & Hp & Hw & Hcb).
  rewrite Ht in HI.
  destruct (own_timer_head _ _ _ _ HI) as (Hf & Hl & Hm & Hi & Hsw).
  pose proof HI as [Hlt _].
  assert (Hres : captured_results cb ++ [captured_newResult cb] = results q).
  { apply Hcb. rewrite Ht. left. reflexivity. }
  cbn [step]. unfold fireTimer. rewrite Ht. cbv zeta.
  cbn [quiz setTimers instance]. rewrite Hq.
  unfold dwellCallback. rewrite Hi, Hsw, Hres.
  destruct (Z.of_nat (currentIndex q)
            <? Z.of_nat (length (shuffledWords q)) - 1) eqn:E.
  - apply Z.ltb_lt in E. rewrite Nat.eqb_refl.
    rewrite render_defined
      by (cbn [currentIndex shuffledWords stopListening setIsListening
               setRecognitionRef setCurrentIndex setUserInput setFeedback];
          lia).
    cbn [bind]. eexists. split; [reflexivity|]. split; [reflexivity|].
    split; [|intros; lia].
    intros _. eexists. split; [reflexivity|]. repeat split. exact Hs.
  - apply Z.ltb_ge in E. eexists. split; [reflexivity|].
    split; [reflexivity|]. split; [intros; lia|].
    intros Hlast. cbn [quiz screen quizResults finishQuiz selectedWords setTimers].
    split; [reflexivity|]. split; [reflexivity|]. split; [reflexivity|].
    assert (Hall : map word (results q) = shuffledWords q).
    { rewrite Hw, Hl, Hlast. apply firstn_all. }
    split; [exact Hall|].
    rewrite <- (Permutation_length Hp), <- Hall. symmetry. apply length_map.
Qed.

(** X10: leaving the quiz is clean before the last word.  While idle no
    timer of the quiz is pending; during the feedback of a word that is
    not the last, the one pending timer of the quiz does nothing when it
    fires after the exit: the selection screen stays and no results are
    set. *)
Theorem exit_before_last_word (a : App) (q : QuizScreenState) :
  reachable a ->
  quiz a = Some q ->
  (feedback q = idle ->
   forall cb, ~ In (instance a, cb) (timers (restartApp a))) /\
  (feedback q <> idle ->
   (S (currentIndex q) < length (shuffledWords q))%nat ->
   exists cb,
     timersOf (instance a) (timers (restartApp a)) = [(instance a, cb)] /\
     (forall now, dwellCallback cb now = Advance) /\
     (forall rest now,
         timers a = (instance a, cb) :: rest ->
         step (restartApp a) (TimerFires now)
         = Returns (setTimers rest (restartApp a)))).
Proof.
  intros Hr Hq. pose proof (reachable_Inv a Hr) as [_ HI].
  rewrite Hq in HI. destruct HI as [Hlt HI]. split.
  - intros Hf cb Hin. rewrite Hf in HI. destruct HI as [_ Hm].
    cbn [timers restartApp] in Hin. apply In_timersOf in Hin.
    rewrite Hm in Hin. destruct Hin.
  - intros Hf Hnl.
    assert (H : exists cb,
               timersOf (instance a) (timers a) = [(instance a, cb)] /\
               captured_currentIndex cb = currentIndex q /\
               captured_shuffledWords cb = shuffledWords q).
    { destruct (feedback q); [congruence| |]; apply HI. }
    destruct H as (cb & Hm & Hi & Hw). exists cb.
    assert (Hadv : forall now, dwellCallback cb now = Advance).
    { intros now. unfold dwellCallback. rewrite Hi, Hw.
      destruct (Z.of_nat (currentIndex q)
                <? Z.of_nat (length (shuffledWords q)) - 1) eqn:E;
        [reflexivity|].
      apply Z.ltb_ge in E. lia. }
    split; [exact Hm|]. split; [exact Hadv|].
    intros rest now Ht. cbn [step]. unfold fireTimer.
    cbn [timers restartApp]. rewrite Ht. cbv zeta. rewrite Hadv.
    reflexivity.
Qed.

End SessionProperties.

Lemma duringFirstFeedback_mounted :
  quiz afterFirstAnswer = Some duringFirstFeedback.
Proof. vm_compute. reflexivity. Qed.

Lemma afterFirstAnswer_timer :
  exists cb, timers afterFirstAnswer = [(instance afterFirstAnswer, cb)].
Proof. eexists. vm_compute. reflexivity. Qed.

Lemma results_follow_sequence_witness :
  map word (results duringFirstFeedback) = [dog] /\
  map word (results duringFirstFeedback)
  = firstn (length (results duringFirstFeedback))
           (shuffledWords duringFirstFeedback).
Proof.
  split; [vm_compute; reflexivity|].
  apply (@results_follow_sequence asciiHost afterFirstAnswer
           duringFirstFeedback afterFirstAnswer_reachable
           duringFirstFeedback_mounted).
Defined.

Lemma sequence_of_selected_words_witness :
  screen afterFirstAnswer = QUIZ /\
  Permutation (shuffledWords duringFirstFeedback) [cat; dog].
Proof.
  destruct (@sequence_of_selected_words asciiHost afterFirstAnswer
              afterFirstAnswer_reachable) as [H1 H2].
  split; [apply H1; rewrite duringFirstFeedback_mounted; discriminate|].
  apply (H2 duringFirstFeedback duringFirstFeedback_mounted).
Defined.

Lemma step_monotone_witness :
  exists a',
    @step asciiHost afterFirstAnswer (TimerFires 2000) = Returns a' /\
    forall q', quiz a' = Some q' ->
               shuffledWords q' = shuffledWords duringFirstFeedback.
Proof.
  destruct (@step_monotone asciiHost afterFirstAnswer (TimerFires 2000)
              afterFirstAnswer_reachable) as (a' & Hs & H).
  exists a'. split; [exact Hs|]. intros q' Hq'.
  apply (H duringFirstFeedback q' duringFirstFeedback_mounted Hq').
Defined.

Lemma dwell_timer_fires_witness :
  exists a' q',
    @step asciiHost afterFirstAnswer (TimerFires 2000) = Returns a' /\
    quiz a' = Some q' /\ feedback q' = idle /\ currentIndex q' = 1%nat /\
    length (results q') = 1%nat.
Proof.
  destruct afterFirstAnswer_timer as [cb Ht].
  destruct (@dwell_timer_fires asciiHost afterFirstAnswer duringFirstFeedback
              cb [] 2000 afterFirstAnswer_reachable
              duringFirstFeedback_mounted Ht)
    as (a' & Hs & _ & Hadv & _).
  destruct (Hadv ltac:(vm_compute; lia))
    as (q' & Hq' & _ & Hf & _ & Hi & Hr & _).
  exists a', q'. split; [exact Hs|]. split; [exact Hq'|].
  split; [exact Hf|]. split; [rewrite Hi; reflexivity|].
  rewrite Hr. reflexivity.
Defined.

Lemma exit_before_last_word_witness :
  exists cb,
    timersOf (instance afterFirstAnswer) (timers (restartApp afterFirstAnswer))
    = [(instance afterFirstAnswer, cb)] /\
    forall now, dwellCallback cb now = Advance.
Proof.
  destruct (@exit_before_last_word asciiHost afterFirstAnswer
              duringFirstFeedback afterFirstAnswer_reachable
              duringFirstFeedback_mounted) as [_ H].
  destruct (H ltac:(vm_compute; discriminate) ltac:(vm_compute; lia))
    as (cb & Hm & Hadv & _).
  exists cb. split; [exact Hm|exact Hadv].
Defined.

(** ** The voices offered in Dad mode *)

Section SortOrders.
Context {A : Type}.
Variable comparefn : A -> A -> nat -> Number.t * nat.
Variable key : A -> Z.

(** The comparator respects the key: a negative answer only for a key
    that is not larger, any other answer only for one not smaller. *)
Hypothesis comparefn_key :
  forall x y k,
    (Number.ltb (fst (comparefn x y k)) (Number.ofZ 0) = true ->
     key x <= key y) /\
    (Number.ltb (fst (comparefn x y k)) (Number.ofZ 0) = false ->
     key y <= key x).

Lemma insertSorted_ordered (x : A) (sorted : list A) (k : nat) :
  StronglySorted (fun a b => key a <= key b) sorted ->
  StronglySorted (fun a b => key a <= key b)
                 (fst (insertSorted comparefn x sorted k)).
Proof.
  revert k. induction sorted as [|y rest IH]; intros k Hs.
  - cbn. constructor; constructor.
  - cbn [insertSorted].
    pose proof (comparefn_key x y k) as [Hlt Hge].
    destruct (comparefn x y k) as [v k']. cbn [fst] in Hlt, Hge.
    apply StronglySorted_inv in Hs. destruct Hs as [Hrest Hy].
    destruct (Number.ltb v (Number.ofZ 0)).
    + cbn [fst]. specialize (Hlt eq_refl).
      constructor; [constructor; assumption|].
      constructor; [exact Hlt|].
      eapply Forall_impl; [|exact Hy]. cbn beta. intros; lia.
    + specialize (Hge eq_refl). specialize (IH k' Hrest).
      pose proof (insertSorted_Permutation comparefn x rest k') as Hp.
      destruct (insertSorted comparefn x rest k') as [r k'']. cbn [fst] in *.
      constructor; [exact IH|].
      apply (Permutation_Forall (Permutation_sym Hp)).
      constructor; assumption.
Qed.

Lemma sortFrom_ordered (rest sorted : list A) (k : nat) :
  StronglySorted (fun a b => key a <= key b) sorted ->
  StronglySorted (fun a b => key a <= key b)
                 (fst (sortFrom comparefn sorted rest k)).
Proof.
  revert sorted k. induction rest as [|x rest IH]; intros sorted k Hs.
  - exact Hs.
  - cbn [sortFrom].
    pose proof (insertSorted_ordered x sorted k Hs) as Hi.
    destruct (insertSorted comparefn x sorted k) as [sorted' k'].
    apply IH, Hi.
Qed.

Lemma Array_sort_ordered (l : list A) (k : nat) :
  StronglySorted (fun a b => key a <= key b)
                 (fst (Array_sort comparefn l k)).
Proof. apply sortFrom_ordered. constructor. Qed.

End SortOrders.

Lemma nonempty_In {A} (l : list A) : l <> [] -> exists x, In x l.
Proof. destruct l as [|x l]; [congruence|]. exists x. left. reflexivity. Qed.

Lemma list_eq_nil_dec {A} (l : list A) : l = [] \/ l <> [].
Proof. destruct l; [left; reflexivity|right; discriminate]. Qed.

Lemma priority_difference_sign (p p' : Z) :
  In p regionPriorities -> In p' regionPriorities ->
  Number.ltb (Number.sub (Number.ofZ p) (Number.ofZ p')) (Number.ofZ 0)
  = (p <? p').
Proof.
  assert (H : forallb
                (fun p =>
                   forallb
                     (fun p' =>
                        Bool.eqb
                          (Number.ltb
                             (Number.sub (Number.ofZ p) (Number.ofZ p'))
                             (Number.ofZ 0))
                          (p <? p'))
                     regionPriorities)
                regionPriorities = true) by (vm_compute; reflexivity).
  intros Hp Hp'. rewrite forallb_forall in H. specialize (H p Hp).
  rewrite forallb_forall in H. specialize (H p' Hp').
  apply Bool.eqb_prop, H.
Qed.

Lemma getRegionPriority_range (host : Host) (n l : jsstring) :
  In (getRegionPriority n l) regionPriorities.
Proof.
  unfold getRegionPriority, regionPriorities.
  repeat match goal with
         | |- context [if ?b then _ else _] => destruct b
         end; cbn; tauto.
Qed.

Lemma getRegionPriorityEnglish_range (host : Host) (n l : jsstring) :
  In (getRegionPriorityEnglish n l) regionPriorities.
Proof.
  unfold getRegionPriorityEnglish, regionPriorities.
  repeat match goal with
         | |- context [if ?b then _ else _] => destruct b
         end; cbn; tauto.
Qed.

Section Offered.
Context {host : Host}.
Variable localeCompare : jsstring -> jsstring -> Number.t.

Lemma byRegionThenName_key (priority : jsstring -> jsstring -> Z) :
  (forall n l, In (priority n l) regionPriorities) ->
  forall x y k,
    (Number.ltb (fst (byRegionThenName localeCompare priority x y k))
                (Number.ofZ 0) = true ->
     priority (name x) (lang x) <= priority (name y) (lang y)) /\
    (Number.ltb (fst (byRegionThenName localeCompare priority x y k))
                (Number.ofZ 0) = false ->
     priority (name y) (lang y) <= priority (name x) (lang x)).
Proof.
  intros Hr x y k. unfold byRegionThenName. cbn [fst].
  destruct (Z.eqb_spec (priority (name x) (lang x))
                       (priority (name y) (lang y))) as [E|E]; cbn [negb].
  - rewrite E. split; intros _; lia.
  - rewrite (priority_difference_sign _ _ (Hr _ _) (Hr _ _)).
    split; intros H; [apply Z.ltb_lt in H|apply Z.ltb_ge in H]; lia.
Qed.

(** X11: the male voices offered are exactly the voices of the catalogue
    with "en" in the language tag and a male keyword in the name, each
    as often as the catalogue has it, in non-decreasing region priority
    (in the sort as modelled this needs nothing of [localeCompare]). *)
Theorem maleVoices_sorted (allVoices : list SpeechSynthesisVoice) :
  Permutation (maleVoices localeCompare allVoices)
              (filter isMaleVoice allVoices) /\
  StronglySorted
    (fun a b => getRegionPriority (name a) (lang a)
                <= getRegionPriority (name b) (lang b))
    (maleVoices localeCompare allVoices) /\
  (forall v, In v (maleVoices localeCompare allVoices) <->
             In v allVoices /\ includes (lang v) (js "en") = true /\
             existsb (fun kw => includes (toLowerCase (name v)) kw)
                     selectionMaleKeywords = true).
Proof.
  assert (Hp : Permutation (maleVoices localeCompare allVoices)
                           (filter isMaleVoice allVoices))
    by apply Array_sort_Permutation.
  split; [exact Hp|]. split.
  - apply (Array_sort_ordered _ (fun v => getRegionPriority (name v) (lang v))).
    intros x y k.
    apply (byRegionThenName_key getRegionPriority (getRegionPriority_range host)).
  - intros v. split.
    + intros H. apply (Permutation_in _ Hp) in H. apply filter_In in H.
      destruct H as [Hin Hm]. split; [exact Hin|].
      unfold isMaleVoice in Hm.
      destruct (includes (lang v) (js "en")); [|discriminate].
      split; [reflexivity|exact Hm].
    + intros (Hin & Hen & Hk).
      apply (Permutation_in _ (Permutation_sym Hp)). apply filter_In.
      split; [exact Hin|]. unfold isMaleVoice. rewrite Hen. exact Hk.
Qed.

Lemma maleVoices_english (allVoices : list SpeechSynthesisVoice)
      (v : SpeechSynthesisVoice) :
  In v (maleVoices localeCompare allVoices) ->
  In v (allEnglishVoices localeCompare allVoices).
Proof.
  intros H.
  apply (Permutation_in _ (Array_sort_Permutation _ _ _)) in H.
  apply (Permutation_in _ (Permutation_sym (Array_sort_Permutation _ _ _))).
  apply filter_In in H. destruct H as [Hin Hm]. apply filter_In.
  split; [exact Hin|]. unfold isMaleVoice in Hm.
  destruct (includes (lang v) (js "en")); [reflexivity|discriminate].
Qed.

Lemma allEnglishVoices_In (allVoices : list SpeechSynthesisVoice)
      (v : SpeechSynthesisVoice) :
  In v (allEnglishVoices localeCompare allVoices) <->
  In v allVoices /\ includes (lang v) (js "en") = true.
Proof.
  unfold allEnglishVoices. split; intros H.
  - apply (Permutation_in _ (Array_sort_Permutation _ _ _)) in H.
    apply filter_In in H. exact H.
  - apply (Permutation_in _ (Permutation_sym (Array_sort_Permutation _ _ _))).
    apply filter_In. exact H.
Qed.

Lemma voicesForDadMode_cases (allVoices : list SpeechSynthesisVoice) :
  (maleVoices localeCompare allVoices <> [] /\
   voicesForDadMode localeCompare allVoices
   = maleVoices localeCompare allVoices) \/
  (maleVoices localeCompare allVoices = [] /\
   voicesForDadMode localeCompare allVoices
   = allEnglishVoices localeCompare allVoices).
Proof.
  unfold voicesForDadMode.
  destruct (maleVoices localeCompare allVoices) as [|v l].
  - right. split; reflexivity.
  - left. split; [discriminate|reflexivity].
Qed.

(** X12: every voice offered in Dad mode is a voice of the catalogue with
    "en" in its language tag; when some voice qualifies as male only
    such voices are offered, otherwise all the English ones are; nothing
    is offered exactly when the catalogue has no English voice. *)
Theorem voicesForDadMode_offer (allVoices : list SpeechSynthesisVoice) :
  (forall v, In v (voicesForDadMode localeCompare allVoices) ->
             In v allVoices /\ includes (lang v) (js "en") = true) /\
  ((exists m, In m allVoices /\ isMaleVoice m = true) ->
   forall v, In v (voicesForDadMode localeCompare allVoices) <->
             In v allVoices /\ isMaleVoice v = true) /\
  ((forall m, In m allVoices -> isMaleVoice m = false) ->
   forall v, In v (voicesForDadMode localeCompare allVoices) <->
             In v allVoices /\ includes (lang v) (js "en") = true) /\
  (voicesForDadMode localeCompare allVoices = [] <->
   forall v, In v allVoices -> includes (lang v) (js "en") = false).
Proof.
  assert (Hm : forall v, In v (maleVoices localeCompare allVoices) <->
                         In v allVoices /\ isMaleVoice v = true).
  { intros v. unfold maleVoices. split; intros H.
    - apply (Permutation_in _ (Array_sort_Permutation _ _ _)) in H.
      apply filter_In in H. exact H.
    - apply (Permutation_in _ (Permutation_sym (Array_sort_Permutation _ _ _))).
      apply filter_In. exact H. }
  destruct (voicesForDadMode_cases allVoices) as [[Hne ->]|[He ->]].
  - split; [|split; [|split]].
    + intros v H. apply allEnglishVoices_In, maleVoices_english, H.
    + intros _. exact Hm.
    + intros Hnone. exfalso.
      destruct (nonempty_In _ Hne) as [m Hin].
      apply Hm in Hin. destruct Hin as [Hin Hmale].
      rewrite (Hnone m Hin) in Hmale. discriminate.
    + split; [intros E; congruence|].
      intros Hnone. exfalso.
      destruct (nonempty_In _ Hne) as [m Hin].
      apply maleVoices_english, allEnglishVoices_In in Hin.
      destruct Hin as [Hin Hen]. rewrite (Hnone m Hin) in Hen. discriminate.
  - split; [|split; [|split]].
    + intros v H. apply allEnglishVoices_In, H.
    + intros (m & Hin & Hmale). exfalso.
      assert (H : In m (maleVoices localeCompare allVoices))
        by (apply Hm; split; assumption).
      rewrite He in H. destruct H.
    + intros _ v. apply allEnglishVoices_In.
    + split.
      * intros E v Hin.
        destruct (includes (lang v) (js "en")) eqn:Hen; [|reflexivity].
        exfalso.
        assert (H : In v (allEnglishVoices localeCompare allVoices))
          by (apply allEnglishVoices_In; split; assumption).
        rewrite E in H. destruct H.
      * intros Hnone.
        destruct (list_eq_nil_dec (allEnglishVoices localeCompare allVoices))
          as [E|E]; [exact E|].
        exfalso. destruct (nonempty_In _ E) as [v Hin].
        apply allEnglishVoices_In in Hin.
        destruct Hin as [Hin Hen]. rewrite (Hnone v Hin) in Hen.
        discriminate.
Qed.

End Offered.

(** ** The default voice and the priority of US voices *)

Lemma startsWith_map (f : codeunit -> codeunit) (s p : jsstring) :
  startsWith s p = true -> startsWith (map f s) (map f p) = true.
Proof.
  revert s. induction p as [|d p IH]; intros s H;
    [destruct s; reflexivity|].
  destruct s as [|c s]; [discriminate|]. cbn [startsWith map] in *.
  apply andb_prop in H. destruct H as [Hc Hs].
  apply Z.eqb_eq in Hc. subst d. rewrite Z.eqb_refl. apply IH, Hs.
Qed.

Lemma includes_map (f : codeunit -> codeunit) (s p : jsstring) :
  includes s p = true -> includes (map f s) (map f p) = true.
Proof.
  induction s as [|c s IH]; cbn [includes map]; intros H.
  - apply orb_prop in H. destruct H as [H|H]; [|discriminate].
    pose proof (startsWith_map f [] p H) as K. cbn [map] in K.
    rewrite K. reflexivity.
  - apply orb_prop in H. destruct H as [H|H].
    + pose proof (startsWith_map f (c :: s) p H) as K. cbn [map] in K.
      rewrite K. reflexivity.
    + rewrite (IH H). apply orb_true_r.
Qed.

Lemma includes_app_r (s t p : jsstring) :
  includes t p = true -> includes (s ++ t) p = true.
Proof.
  intros H. induction s as [|c s IH]; [exact H|].
  cbn [app includes]. rewrite IH. apply orb_true_r.
Qed.

Section DefaultVoice.
Context {host : Host}.
Variable localeCompare : jsstring -> jsstring -> Number.t.

(** X13: a voice whose language tag contains "en-US" has the first
    region priority whatever its name says (name and tag in ASCII), and
    the priority is always one of 1 to 6 or 99. *)
Theorem getRegionPriority_US (name' lang' : jsstring) :
  ascii_faithful host ->
  forallb isAscii name' = true ->
  forallb isAscii lang' = true ->
  includes lang' (js "en-US") = true ->
  getRegionPriority name' lang' = 1 /\
  getRegionPriorityEnglish name' lang' = 1 /\
  forall n l, In (getRegionPriority n l) [1; 2; 3; 4; 5; 6; 99].
Proof.
  intros Hh Hn Hl Hus.
  assert (T : includes (regionText name' lang') (js "en-us") = true).
  { unfold regionText. rewrite Hh.
    - rewrite !map_app. apply includes_app_r, includes_app_r.
      apply (includes_map asciiLower lang' (js "en-US") Hus).
    - rewrite !forallb_app, Hn, Hl. reflexivity. }
  split; [|split].
  - unfold getRegionPriority. rewrite T, orb_true_r. reflexivity.
  - unfold getRegionPriorityEnglish. rewrite T, orb_true_r. reflexivity.
  - apply getRegionPriority_range.
Qed.

Lemma findByNames_In (voices : list SpeechSynthesisVoice)
      (names : list jsstring) (v : SpeechSynthesisVoice) :
  findByNames voices names = Some v -> In v voices.
Proof.
  induction names as [|n names IH]; [discriminate|]. cbn [findByNames].
  destruct (find (nameHas n) voices) as [v'|] eqn:E; [|exact IH].
  intros H. injection H as <-. apply find_some in E. apply E.
Qed.

Lemma chooseDefaultVoice_In (voices : list SpeechSynthesisVoice) :
  voices <> [] ->
  exists v, chooseDefaultVoice voices = Some v /\ In v voices.
Proof.
  intros Hne. unfold chooseDefaultVoice.
  destruct (find _ voices) as [v1|] eqn:E1; cbn [orElse].
  { exists v1. split; [reflexivity|]. apply find_some in E1. apply E1. }
  destruct (find (nameHas (js "andrew")) voices) as [v2|] eqn:E2;
    cbn [orElse].
  { exists v2. split; [reflexivity|]. apply find_some in E2. apply E2. }
  destruct (findByNames voices _) as [v3|] eqn:E3; cbn [orElse].
  { exists v3. split; [reflexivity|]. apply (findByNames_In _ _ _ E3). }
  destruct voices as [|v voices]; [congruence|].
  exists v. split; [reflexivity|left; reflexivity].
Qed.

(** X14: when Dad mode offers any voice and none is chosen yet, the
    effect chooses one of the offered voices, a voice of the catalogue;
    if its URI is not empty, an utterance spoken with that URI on the
    same catalogue gets a voice with that URI and keeps the default
    pitch. *)
Theorem defaultVoice_is_spoken (allVoices : list SpeechSynthesisVoice) :
  voicesForDadMode localeCompare allVoices <> [] ->
  exists v,
    chooseDefaultVoice (voicesForDadMode localeCompare allVoices) = Some v /\
    defaultVoiceEffect (voicesForDadMode localeCompare allVoices) []
    = voiceURI v /\
    In v (voicesForDadMode localeCompare allVoices) /\
    In v allVoices /\
    (voiceURI v <> [] ->
     forall text speechRate,
     exists u v',
       speakWord true allVoices text male (Some (voiceURI v)) speechRate
       = Some u /\
       utterance_voice u = Some v' /\ voiceURI v' = voiceURI v /\
       utterance_pitch u = Number.ofZ 1).
Proof.
  intros Hne.
  destruct (chooseDefaultVoice_In _ Hne) as (v & Hc & Hin).
  assert (Hcat : In v allVoices).
  { destruct (voicesForDadMode_cases localeCompare allVoices)
      as [[_ E]|[_ E]]; rewrite E in Hin.
    - apply (maleVoices_english localeCompare) in Hin.
      apply (allEnglishVoices_In localeCompare) in Hin. apply Hin.
    - apply (allEnglishVoices_In localeCompare) in Hin. apply Hin. }
  exists v. split; [exact Hc|]. split.
  { unfold defaultVoiceEffect.
    destruct (voicesForDadMode localeCompare allVoices); [congruence|].
    rewrite Hc. reflexivity. }
  split; [exact Hin|]. split; [exact Hcat|].
  intros Huri text speechRate.
  destruct (find (fun v0 => str_eqb (voiceURI v0) (voiceURI v)) allVoices)
    as [v'|] eqn:Ef.
  2:{ exfalso. pose proof (find_none _ _ Ef v Hcat) as H. cbn beta in H.
      rewrite str_eqb_refl in H. discriminate. }
  assert (Hs : findSpecific allVoices (Some (voiceURI v)) = Some v').
  { unfold findSpecific, truthyURI.
    destruct (voiceURI v); [congruence|exact Ef]. }
  unfold speakWord. cbn [negb].
  rewrite (selectVoice_found_specific host allVoices male _ v' Hs).
  eexists _, v'. split; [reflexivity|].
  cbn [utterance_voice utterance_pitch negb].
  apply find_some in Ef. destruct Ef as [_ Ef]. apply str_eqb_eq in Ef.
  repeat split. exact Ef.
Qed.

End DefaultVoice.

Lemma getRegionPriority_US_witness :
  @getRegionPriority asciiHost (name david) (lang david) = 1.
Proof.
  apply (@getRegionPriority_US asciiHost (name david) (lang david)
           asciiHost_faithful eq_refl eq_refl eq_refl).
Defined.

Lemma defaultVoice_is_spoken_witness :
  @voicesForDadMode asciiHost noOrder [samantha; daniel; david] <> [] /\
  exists v,
    @chooseDefaultVoice asciiHost
       (@voicesForDadMode asciiHost noOrder [samantha; daniel; david])
    = Some v /\
    In v [samantha; daniel; david].
Proof.
  assert (Hne : @voicesForDadMode asciiHost noOrder [samantha; daniel; david]
                <> []) by (vm_compute; discriminate).
  split; [exact Hne|].
  destruct (@defaultVoice_is_spoken asciiHost noOrder
              [samantha; daniel; david] Hne) as (v & Hc & _ & _ & Hin & _).
  exists v. split; assumption.
Defined.

(** ** The set of checked words *)

Lemma has_In (s : list jsstring) (i : jsstring) :
  has s i = true <-> In i s.
Proof.
  unfold has. rewrite existsb_exists. split.
  - intros (x & Hin & He). apply str_eqb_eq in He. subst x. exact Hin.
  - intros Hin. exists i. split; [exact Hin|apply str_eqb_refl].
Qed.

Lemma has_false (s : list jsstring) (i : jsstring) :
  has s i = false <-> ~ In i s.
Proof.
  rewrite <- has_In. destruct (has s i); split; congruence.
Qed.

Lemma str_eqb_neq (i j : jsstring) : str_eqb i j = false <-> i <> j.
Proof.
  rewrite <- str_eqb_eq. destruct (str_eqb i j); split; congruence.
Qed.

Lemma has_Set_add (x : jsstring) (s : list jsstring) (j : jsstring) :
  has (Set_add x s) j = has s j || str_eqb j x.
Proof.
  unfold Set_add. destruct (has s x) eqn:E.
  - destruct (str_eqb j x) eqn:Ej; [|rewrite orb_false_r; reflexivity].
    apply str_eqb_eq in Ej. subst j. rewrite E. reflexivity.
  - unfold has. rewrite existsb_app. cbn [existsb].
    rewrite orb_false_r. reflexivity.
Qed.

Lemma has_Set_delete (x : jsstring) (s : list jsstring) (j : jsstring) :
  has (Set_delete x s) j = has s j && negb (str_eqb x j).
Proof.
  unfold Set_delete, has. induction s as [|y s IH]; [reflexivity|].
  cbn [filter existsb]. destruct (str_eqb x y) eqn:Exy; cbn [negb].
  - apply str_eqb_eq in Exy. subst y. rewrite IH.
    destruct (str_eqb j x) eqn:Ej.
    + apply str_eqb_eq in Ej. subst j. rewrite str_eqb_refl. cbn [negb].
      rewrite !andb_false_r. reflexivity.
    + reflexivity.
  - cbn [existsb]. rewrite IH.
    destruct (str_eqb j y) eqn:Ej; [|reflexivity].
    apply str_eqb_eq in Ej. subst j. rewrite Exy. reflexivity.
Qed.

Lemma NoDup_Set_delete (x : jsstring) (s : list jsstring) :
  NoDup s -> NoDup (Set_delete x s).
Proof. apply NoDup_filter. Qed.

Lemma Set_delete_absent (x : jsstring) (s : list jsstring) :
  ~ In x s -> Set_delete x s = s.
Proof.
  unfold Set_delete. induction s as [|y s IH]; intros H; [reflexivity|].
  cbn [filter].
  assert (E : str_eqb x y = false).
  { apply str_eqb_neq. intros ->. apply H. left. reflexivity. }
  rewrite E. cbn [negb]. rewrite IH; [reflexivity|].
  intros Hin. apply H. right. exact Hin.
Qed.

Lemma length_Set_delete (x : jsstring) (s : list jsstring) :
  NoDup s -> In x s -> S (length (Set_delete x s)) = length s.
Proof.
  induction 1 as [|y s Hy Hs IH]; intros Hin; [destruct Hin|].
  unfold Set_delete. cbn [filter].
  destruct (str_eqb x y) eqn:E; cbn [negb length].
  - apply str_eqb_eq in E. subst y.
    fold (Set_delete x s). rewrite (Set_delete_absent x s Hy). reflexivity.
  - fold (Set_delete x s). f_equal. apply IH.
    destruct Hin as [->|Hin]; [|exact Hin].
    rewrite str_eqb_refl in E. discriminate.
Qed.

(** X15: [toggleWord] flips the membership of the word's id and of no
    other; the set stays free of repetitions and its size changes by
    exactly one; toggling the same word twice gives back a set with the
    same members. *)
Theorem toggleWord_flips (i : jsstring) (checkedWords : list jsstring) :
  NoDup checkedWords ->
  (forall j, has (toggleWord i checkedWords) j
             = if str_eqb i j then negb (has checkedWords i)
               else has checkedWords j) /\
  NoDup (toggleWord i checkedWords) /\
  length (toggleWord i checkedWords)
  = (if has checkedWords i then pred (length checkedWords)
     else S (length checkedWords)) /\
  (forall j, has (toggleWord i (toggleWord i checkedWords)) j
             = has checkedWords j).
Proof.
  intros Hnd.
  assert (F : forall s j, has (toggleWord i s) j
                          = if str_eqb i j then negb (has s i) else has s j).
  { intros s j. unfold toggleWord. destruct (has s i) eqn:E.
    - rewrite has_Set_delete. destruct (str_eqb i j) eqn:Eij; cbn [negb].
      + apply andb_false_r.
      + apply andb_true_r.
    - rewrite has_Set_add. destruct (str_eqb i j) eqn:Eij.
      + apply str_eqb_eq in Eij. subst j. rewrite str_eqb_refl.
        apply orb_true_r.
      + assert (Eji : str_eqb j i = false).
        { apply str_eqb_neq. intros ->. rewrite str_eqb_refl in Eij.
          discriminate. }
        rewrite Eji. apply orb_false_r. }
  split; [apply F|]. split; [|split].
  - unfold toggleWord, Set_add. destruct (has checkedWords i) eqn:E.
    + apply NoDup_Set_delete, Hnd.
    + apply NoDup_app; [exact Hnd|constructor; [intros []|constructor]|].
      intros x Hx [<-|[]]. apply has_false in E. contradiction.
  - unfold toggleWord, Set_add. destruct (has checkedWords i) eqn:E.
    + apply has_In in E.
      rewrite <- (length_Set_delete i checkedWords Hnd E). reflexivity.
    + rewrite length_app. cbn [length]. lia.
  - intros j. rewrite !F. destruct (str_eqb i j) eqn:Eij.
    + rewrite str_eqb_refl. apply str_eqb_eq in Eij. subst j.
      apply negb_involutive.
    + reflexivity.
Qed.

Lemma toggleWord_flips_witness :
  NoDup [id cat; id dog] /\
  toggleWord (id cat) [id cat; id dog] = [id dog] /\
  has (toggleWord (id cat) [id cat; id dog]) (id cat) = false.
Proof.
  assert (Hnd : NoDup [id cat; id dog]).
  { constructor; [intros [H|[]]; discriminate|].
    constructor; [intros []|constructor]. }
  split; [exact Hnd|]. split; [reflexivity|].
  destruct (toggleWord_flips (id cat) [id cat; id dog] Hnd) as (H & _).
  rewrite H. reflexivity.
Defined.

Lemma NoDup_Set_add (x : jsstring) (s : list jsstring) :
  NoDup s -> NoDup (Set_add x s).
Proof.
  intros Hnd. unfold Set_add. destruct (has s x) eqn:E; [exact Hnd|].
  apply NoDup_app; [exact Hnd|constructor; [intros []|constructor]|].
  intros y Hy [<-|[]]. apply has_false in E. contradiction.
Qed.

Lemma has_fold_Set_add (ids acc : list jsstring) (j : jsstring) :
  has (fold_left (fun s x => Set_add x s) ids acc) j = has acc j || has ids j.
Proof.
  revert acc. induction ids as [|x ids IH]; intros acc; cbn [fold_left].
  - unfold has at 3. cbn [existsb]. rewrite orb_false_r. reflexivity.
  - rewrite IH, has_Set_add. unfold has at 4. cbn [existsb].
    fold (has ids j). rewrite orb_assoc. reflexivity.
Qed.

Lemma NoDup_fold_Set_add (ids acc : list jsstring) :
  NoDup acc -> NoDup (fold_left (fun s x => Set_add x s) ids acc).
Proof.
  revert acc. induction ids as [|x ids IH]; intros acc H; [exact H|].
  cbn [fold_left]. apply IH, NoDup_Set_add, H.
Qed.

Lemma fold_Set_add_NoDup (ids acc : list jsstring) :
  NoDup (acc ++ ids) -> fold_left (fun s x => Set_add x s) ids acc = acc ++ ids.
Proof.
  revert acc. induction ids as [|x ids IH]; intros acc H; cbn [fold_left].
  - symmetry. apply app_nil_r.
  - assert (E : has acc x = false).
    { apply has_false. intros Hin. apply NoDup_remove_2 in H. apply H.
      apply in_or_app. left. exact Hin. }
    unfold Set_add. rewrite E.
    change (acc ++ x :: ids) with (acc ++ [x] ++ ids) in *.
    rewrite app_assoc in *. apply IH, H.
Qed.

Lemma filter_all {A} (f : A -> bool) (l : list A) :
  (forall x, In x l -> f x = true) -> filter f l = l.
Proof.
  induction l as [|x l IH]; intros H; [reflexivity|]. cbn [filter].
  rewrite (H x (or_introl eq_refl)). f_equal. apply IH.
  intros y Hy. apply H. right. exact Hy.
Qed.

Lemma filter_none {A} (f : A -> bool) (l : list A) :
  (forall x, In x l -> f x = false) -> filter f l = [].
Proof.
  induction l as [|x l IH]; intros H; [reflexivity|]. cbn [filter].
  rewrite (H x (or_introl eq_refl)). apply IH.
  intros y Hy. apply H. right. exact Hy.
Qed.

(** X16: [toggleAll] decides by the size of the checked set alone.  When
    the size equals the number of available words it unchecks all, and
    the start button then finds nothing to quiz; otherwise it checks the
    id of every available word, and the start button would quiz them
    all.  With distinct ids, a second [toggleAll] after a checking one
    unchecks all again. *)
Theorem toggleAll_checks
        (availableWords : list VocabWord) (checkedWords : list jsstring) :
  (length checkedWords = length availableWords ->
   toggleAll availableWords checkedWords = [] /\
   filter (fun w => has (toggleAll availableWords checkedWords) (id w))
          availableWords = []) /\
  (length checkedWords <> length availableWords ->
   (forall j, has (toggleAll availableWords checkedWords) j
              = has (map id availableWords) j) /\
   NoDup (toggleAll availableWords checkedWords) /\
   filter (fun w => has (toggleAll availableWords checkedWords) (id w))
          availableWords = availableWords) /\
  (NoDup (map id availableWords) ->
   length checkedWords <> length availableWords ->
   toggleAll availableWords (toggleAll availableWords checkedWords) = []).
Proof.
  split; [|split].
  - intros E. unfold toggleAll. apply Nat.eqb_eq in E. rewrite E.
    split; [reflexivity|]. apply filter_none. reflexivity.
  - intros E. unfold toggleAll. apply Nat.eqb_neq in E. rewrite E.
    assert (M : forall j, has (Set_of (map id availableWords)) j
                          = has (map id availableWords) j).
    { intros j. unfold Set_of. rewrite has_fold_Set_add. reflexivity. }
    split; [exact M|]. split.
    + apply NoDup_fold_Set_add. constructor.
    + apply filter_all. intros w Hw. rewrite M. apply has_In.
      apply in_map, Hw.
  - intros Hnd E. unfold toggleAll at 2. apply Nat.eqb_neq in E. rewrite E.
    unfold Set_of. rewrite (fold_Set_add_NoDup _ [] Hnd). cbn [app].
    unfold toggleAll. rewrite length_map, Nat.eqb_refl. reflexivity.
Qed.

Lemma toggleAll_checks_witness :
  toggleAll [cat; dog] [id cat] = [id cat; id dog] /\
  toggleAll [cat; dog] (toggleAll [cat; dog] [id cat]) = [].
Proof.
  split; [reflexivity|].
  destruct (toggleAll_checks [cat; dog] [id cat]) as (_ & _ & H).
  apply H.
  - constructor; [intros [E|[]]; discriminate|].
    constructor; [intros []|constructor].
  - discriminate.
Defined.

(** ** The summary of a short session *)

Lemma correctCount_le_total (results : list QuizResult) :
  (correctCount results <= total results)%nat.
Proof. apply filter_length_le. Qed.

Lemma classAgreesBelow_40 :
  ltac:(let t := eval cbv beta delta [classAgreesBelow]
                 in (classAgreesBelow 40 = true)
        in exact t).
Proof. vm_compute. reflexivity. Qed.

Lemma outcomeClass_counts (results : list QuizResult) :
  outcomeClass results = classOfCounts (correctCount results) (total results).
Proof. reflexivity. Qed.

(** X17: for a session of fewer than 40 words the summary is exact: the
    percentage shown is the exact quotient rounded to the nearest
    integer, a tie going up; the card is Perfect exactly when every
    answer is correct, Poor exactly when fewer than 79.5 per cent are,
    and Normal otherwise. *)
Theorem summary_exact_below_40 (results : list QuizResult) :
  results <> [] ->
  (length results < 40)%nat ->
  Number.eqb (percentage results)
             (Number.ofZ
                (round_half_up (100 * Z.of_nat (correctCount results))
                               (Z.of_nat (total results)))) = true /\
  (outcomeClass results = Perfect <-> correctCount results = total results) /\
  (outcomeClass results = Poor <->
   200 * Z.of_nat (correctCount results) < 159 * Z.of_nat (total results)).
Proof.
  intros Hne Hlt.
  assert (Hn : (0 < total results)%nat).
  { unfold total. destruct results; [congruence|cbn; lia]. }
  pose proof (correctCount_le_total results) as Hc.
  split.
  { apply percentageOf_exact_below_40; assumption. }
  pose proof (forallb_seq _ 1 (40 - 1) (total results) classAgreesBelow_40
                ltac:(unfold total in *; lia)) as B.
  cbv beta in B.
  pose proof (forallb_seq _ 0 (S (total results)) (correctCount results) B
                ltac:(lia)) as A.
  cbv beta in A. rewrite !outcomeClass_counts.
  unfold exactClass in A.
  destruct (Nat.eqb_spec (correctCount results) (total results)) as [E|E];
    [|destruct (Z.ltb_spec (200 * Z.of_nat (correctCount results))
                           (159 * Z.of_nat (total results)))];
    destruct (classOfCounts (correctCount results) (total results));
    try discriminate A; split; split; intros; try congruence; try lia.
Qed.

Lemma summary_exact_below_40_witness :
  outcomeClass (tally 31 39) = Poor /\ outcomeClass (tally 32 39) = Normal.
Proof.
  destruct (summary_exact_below_40 (tally 31 39) ltac:(discriminate)
              ltac:(cbn; lia)) as (_ & _ & H).
  split; [apply H; vm_compute; reflexivity|].
  vm_compute. reflexivity.
Defined.

(** ** Starting a quiz *)

(** X18: with at least one available word checked, [handleStart] mounts
    a quiz on exactly the checked words: the router holds them in the
    order of the list, the sequence is a rearrangement of them, the quiz
    is idle at position 0 with no record and an empty buffer; a voice
    URI is handed on only in Dad mode and only when it is not empty. *)
Theorem handleStart_mounts
        (availableWords : list VocabWord) (checkedWords : list jsstring)
        (gender : VoiceGender) (selectedMaleVoiceURI : jsstring)
        (random : Random) (now : Z) (a : App) :
  filter (fun w => has checkedWords (id w)) availableWords <> [] ->
  exists a' q,
    handleStart availableWords checkedWords gender selectedMaleVoiceURI
                random now a = Returns a' /\
    screen a' = QUIZ /\ quiz a' = Some q /\
    selectedWords a'
    = filter (fun w => has checkedWords (id w)) availableWords /\
    Permutation (shuffledWords q) (selectedWords a') /\
    (forall w, In w (shuffledWords q) <->
               In w availableWords /\ In (id w) checkedWords) /\
    currentIndex q = 0%nat /\ results q = [] /\ feedback q = idle /\
    userInput q = [] /\ isListening q = false /\ startTimeRef q = now /\
    selectedGender a' = gender /\
    (selectedVoiceURI a' = Some selectedMaleVoiceURI <->
     gender = male /\ selectedMaleVoiceURI <> []) /\
    (selectedVoiceURI a' = None <->
     gender = female \/ selectedMaleVoiceURI = []) /\
    timers a' = timers a.
Proof.
  intros Hne. unfold handleStart.
  set (wordsToQuiz := filter (fun w => has checkedWords (id w)) availableWords)
    in *.
  assert (E : (0 <? Z.of_nat (length wordsToQuiz)) = true).
  { apply Z.ltb_lt. destruct wordsToQuiz; [congruence|cbn [length]; lia]. }
  rewrite E. unfold startQuiz, mountQuizScreen, render, currentWord.
  cbn [shuffledWords currentIndex].
  pose proof (shuffle_Permutation random wordsToQuiz) as Hp.
  destruct (shuffle random wordsToQuiz) as [|w0 ws] eqn:Es.
  { apply Permutation_nil in Hp. congruence. }
  cbn [nth_error bind]. eexists _, _. split; [reflexivity|].
  cbn [screen quiz selectedWords shuffledWords currentIndex results feedback
       userInput isListening startTimeRef selectedGender selectedVoiceURI
       timers].
  split; [reflexivity|]. split; [reflexivity|]. split; [reflexivity|].
  split; [exact Hp|]. split.
  { intros w. split.
    - intros H. apply (Permutation_in _ Hp) in H.
      apply filter_In in H. destruct H as [H1 H2].
      split; [exact H1|apply has_In, H2].
    - intros [H1 H2]. apply (Permutation_in _ (Permutation_sym Hp)).
      apply filter_In. split; [exact H1|apply has_In, H2]. }
  repeat (split; [reflexivity|]).
  split; [|split; [|reflexivity]].
  - destruct gender, selectedMaleVoiceURI; split;
      try (intros H; discriminate H);
      try (intros [H1 H2]; congruence);
      try (intros _; split; [reflexivity|discriminate]).
  - destruct gender, selectedMaleVoiceURI; split;
      try (intros H; discriminate H);
      try (intros [H|H]; discriminate H);
      try (intros _; left; reflexivity);
      try (intros _; right; reflexivity);
      try (intros _; reflexivity).
Qed.

Lemma handleStart_mounts_witness :
  exists a' q,
    handleStart [cat; dog; apple] [id apple; id cat] male
                (js "urn:voice:david") quarter 0 initialApp = Returns a' /\
    quiz a' = Some q /\
    selectedWords a' = [cat; apple] /\
    selectedVoiceURI a' = Some (js "urn:voice:david").
Proof.
  destruct (handleStart_mounts [cat; dog; apple] [id apple; id cat] male
              (js "urn:voice:david") quarter 0 initialApp
              ltac:(vm_compute; discriminate))
    as (a' & q & H1 & _ & H2 & H3 & _ & _ & _ & _ & _ & _ & _ & _ & _ & H4 & _).
  exists a', q. split; [exact H1|]. split; [exact H2|].
  split; [rewrite H3; reflexivity|].
  apply H4. split; [reflexivity|discriminate].
Defined.

(** ** The two male keyword tables, and a catalogue without English *)

Lemma find_all_false {A} (f : A -> bool) (l : list A) :
  (forall x, In x l -> f x = false) -> find f l = None.
Proof.
  induction l as [|x l IH]; intros H; [reflexivity|]. cbn [find].
  rewrite (H x (or_introl eq_refl)). apply IH.
  intros y Hy. apply H. right. exact Hy.
Qed.

Lemma existsb_incl {A} (f : A -> bool) (l l' : list A) :
  incl l l' -> existsb f l = true -> existsb f l' = true.
Proof.
  intros Hi H. apply existsb_exists in H. destruct H as (x & Hx & Hf).
  apply existsb_exists. exists x. split; [apply Hi, Hx|exact Hf].
Qed.

Lemma maleKeywords_incl : incl maleKeywords selectionMaleKeywords.
Proof.
  intros k Hk. unfold maleKeywords in Hk. cbn [map] in Hk.
  repeat (destruct Hk as [<-|Hk];
          [unfold selectionMaleKeywords; cbn [map];
           repeat (first [left; reflexivity|right])|]).
  destruct Hk.
Qed.

Section KeywordTables.
Context {host : Host}.
Variable localeCompare : jsstring -> jsstring -> Number.t.

(** X19: the keyword table of [speakWord] is part of the table of the
    selection screen: a voice the speech utility would take for a male
    voice is always among the male voices the selection screen offers,
    so Dad mode then offers male voices only. *)
Theorem keyword_voice_is_offered
        (allVoices : list SpeechSynthesisVoice) (v : SpeechSynthesisVoice) :
  find (keywordMatch maleKeywords) allVoices = Some v ->
  isMaleVoice v = true /\
  In v (maleVoices localeCompare allVoices) /\
  voicesForDadMode localeCompare allVoices
  = maleVoices localeCompare allVoices.
Proof.
  intros Hf. apply find_some in Hf. destruct Hf as [Hin Hk].
  unfold keywordMatch in Hk. apply andb_prop in Hk. destruct Hk as [Hen Hkw].
  assert (Hm : isMaleVoice v = true).
  { unfold isMaleVoice. rewrite Hen. cbn [negb].
    apply (existsb_incl _ _ _ maleKeywords_incl Hkw). }
  assert (Ho : In v (maleVoices localeCompare allVoices)).
  { apply (Permutation_in _ (Permutation_sym (Array_sort_Permutation _ _ _))).
    apply filter_In. split; assumption. }
  split; [exact Hm|]. split; [exact Ho|].
  destruct (voicesForDadMode_cases localeCompare allVoices)
    as [[_ E]|[E _]]; [exact E|].
  rewrite E in Ho. destruct Ho.
Qed.

Lemma voicesForDadMode_nil (allVoices : list SpeechSynthesisVoice) :
  voicesForDadMode localeCompare allVoices = [] ->
  forall v, In v allVoices -> includes (lang v) (js "en") = false.
Proof.
  intros E v Hin.
  destruct (includes (lang v) (js "en")) eqn:Hen; [|reflexivity].
  exfalso.
  assert (H : In v (allEnglishVoices localeCompare allVoices))
    by (apply allEnglishVoices_In; split; assumption).
  destruct (voicesForDadMode_cases localeCompare allVoices)
    as [[Hne Em]|[_ Ee]].
  - rewrite Em in E. contradiction.
  - rewrite Ee in E. rewrite E in H. destruct H.
Qed.

(** X20: when Dad mode has no voice to offer, the effect leaves the
    voice URI unset, and an utterance in Dad mode without a URI is then
    spoken without a voice of its own and with the pitch lowered to 0.7. *)
Theorem no_english_voice_lowers_pitch
        (allVoices : list SpeechSynthesisVoice) (text : jsstring)
        (speechRate : Number.t) :
  voicesForDadMode localeCompare allVoices = [] ->
  defaultVoiceEffect (voicesForDadMode localeCompare allVoices) [] = [] /\
  exists u,
    speakWord true allVoices text male None speechRate = Some u /\
    utterance_voice u = None /\
    utterance_pitch u = Number.lit 7 10 /\
    utterance_rate u = speechRate /\ utterance_text u = text.
Proof.
  intros E. pose proof (voicesForDadMode_nil allVoices E) as Hno.
  split; [rewrite E; reflexivity|].
  assert (K : find (keywordMatch maleKeywords) allVoices = None).
  { apply find_all_false. intros v Hin. unfold keywordMatch.
    rewrite (Hno v Hin). reflexivity. }
  assert (U : find (fun v => str_eqb (lang v) (js "en-US")) allVoices = None).
  { apply find_all_false. intros v Hin.
    destruct (str_eqb (lang v) (js "en-US")) eqn:Eu; [|reflexivity].
    apply enUS_includes_en in Eu. rewrite (Hno v Hin) in Eu. discriminate. }
  assert (N : find (fun v => includes (lang v) (js "en")) allVoices = None).
  { apply find_all_false. exact Hno. }
  unfold speakWord, selectVoice, findSpecific, truthyURI. cbn [negb isSome].
  rewrite K, U, N. cbn [orElse isSome negb].
  eexists. split; [reflexivity|]. repeat split.
Qed.

End KeywordTables.

Lemma keyword_voice_is_offered_witness :
  @find SpeechSynthesisVoice (@keywordMatch asciiHost maleKeywords)
        [samantha; david] = Some david /\
  In david (@maleVoices asciiHost noOrder [samantha; david]).
Proof.
  assert (H : @find SpeechSynthesisVoice (@keywordMatch asciiHost maleKeywords)
                    [samantha; david] = Some david)
    by (vm_compute; reflexivity).
  split; [exact H|].
  apply (@keyword_voice_is_offered asciiHost noOrder [samantha; david] david H).
Defined.

Lemma no_english_voice_lowers_pitch_witness :
  @voicesForDadMode asciiHost noOrder [amelie] = [] /\
  exists u,
    @speakWord asciiHost true [amelie] (js "cat") male None (Number.lit 8 10)
    = Some u /\
    utterance_voice u = None /\
    utterance_pitch u = Number.lit 7 10.
Proof.
  assert (E : @voicesForDadMode asciiHost noOrder [amelie] = [])
    by (vm_compute; reflexivity).
  split; [exact E|].
  destruct (@no_english_voice_lowers_pitch asciiHost noOrder [amelie]
              (js "cat") (Number.lit 8 10) E) as (_ & u & H1 & H2 & H3 & _).
  exists u. repeat split; assumption.
Defined.
